(** * Orlik-Terao algebras

    A shallow embedding of [src/sage/algebras/orlik_terao.py]: the class
    [OrlikTeraoAlgebra] with its constructor, the coefficient [_chi], the
    reduction [subset_image] and the product [product_on_basis].

    Ground elements are natural numbers, a Python [frozenset] is a
    [gset nat], the dictionary [_broken_circuits] is an insertion-ordered
    association list (its iteration order decides which broken circuit the
    scan of [subset_image] meets first), and an element of the algebra is a
    finite map from index sets to nonzero coefficients.  Python exceptions
    are values of [exn]; a computation returns an [outcome].  The base
    ring, the matroid and the linear algebra are parameters; the examples
    instantiate them with the rationals and the matrix of
    [matroids.Wheel(3)], on which the model reproduces the values of the
    docstrings. *)

From Stdlib Require Import QArith.
From stdpp Require Import gmap list sorting pretty.

(** ** Exceptions and outcomes *)

Inductive exn : Set :=
  | ValueError
  | TypeError
  | KeyError
  | IndexError
  | AssertionError
  | ZeroDivisionError.

(** [OutOfFuel] is not a Python outcome: it marks a run of the fuelled
    recursion that was cut before it finished. *)
Inductive outcome (A : Type) : Type :=
  | Ok (a : A)
  | Raise (e : exn)
  | OutOfFuel.
Arguments Ok {A} a.
Arguments Raise {A} e.
Arguments OutOfFuel {A}.

#[global] Instance outcome_ret : MRet outcome := λ A a, Ok a.
#[global] Instance outcome_bind : MBind outcome := λ A B f x,
  match x with
  | Ok a => f a
  | Raise e => Raise e
  | OutOfFuel => OutOfFuel
  end.

#[global] Instance exn_eq_dec : EqDecision exn.
Proof. solve_decision. Defined.

(** A call into an external collaborator returns or raises; it is never
    cut by the fuel. *)
Definition call {A} (x : exn + A) : outcome A :=
  match x with
  | inl e => Raise e
  | inr a => Ok a
  end.

(** ** The external collaborators *)

(** The base ring [R], with the conversion [R(coeff / lc)] of a quotient
    taken in the fraction field as the partial operation [rdiv]: it raises
    when [lc] is zero or when the quotient has no image in [R]. *)
Class BaseRing (R : Type) := {
  rzero : R;
  rone : R;
  radd : R → R → R;
  rmul : R → R → R;
  ropp : R → R;
  rdiv : R → R → exn + R;
  ring_eq_dec :: EqDecision R;
}.

(** The matroid [M], as far as the algebra queries it. *)
Record Matroid : Type := {
  groundset : gset nat;
  circuits : list (gset nat);
  is_independent : gset nat → bool;
  closure : gset nat → gset nat;
  no_broken_circuits_sets : list nat → exn + list (gset nat);
}.

(** The linear algebra behind [_flat_module] and [_chi]: the
    representation vectors of the matroid, row modules, coordinates in the
    echelon basis of a module, and [det], the conversion
    [R(matrix(rows).det())] of a determinant taken over the fraction field:
    it raises when the determinant has no image in [R].  The coordinates
    are taken to return: the vectors of a flat lie in its module.
    Modelled from the spec: the determinant of the empty matrix is 1
    (section 4.3, "chi(∅) = 1 (the empty determinant)"). *)
Class LinearAlgebra (R : Type) `{!BaseRing R} := {
  Vec : Type;
  VSpace : Type;
  representation_vectors : nat → Vec;
  row_module : list Vec → VSpace;
  echelon_coordinates : VSpace → Vec → Vec;
  det : list Vec → exn + R;
  det_nil : det [] = inr rone;
}.

(** ** Python built-ins used by the class *)

Definition enumerate {A} (l : list A) : list (nat * A) := imap pair l.

Definition getitem (d : gmap nat nat) (x : nat) : outcome nat :=
  match d !! x with
  | Some r => Ok r
  | None => Raise KeyError
  end.

Fixpoint insert_by_key (kx : nat * nat) (l : list (nat * nat)) : list (nat * nat) :=
  match l with
  | [] => [kx]
  | ky :: l' =>
      if decide (kx.1 ≤ ky.1) then kx :: ky :: l' else ky :: insert_by_key kx l'
  end.

Definition sort_by_key (l : list (nat * nat)) : list (nat * nat) :=
  foldr insert_by_key [] l.

(** [sorted(l, key=key)]: the keys are computed first, in iteration order,
    and the first failing key raises; the sort is stable. *)
Definition sorted (key : nat → outcome nat) (l : list nat) : outcome (list nat) :=
  kl ← mapM (λ x, k ← key x; mret (k, x)) l;
  mret ((sort_by_key kl).*2).

(** A Python [dict] with [frozenset] keys, in insertion order: assigning to
    a key that is present replaces its value and keeps its position. *)
Abbreviation dict := (list (gset nat * nat)).

Fixpoint dict_set (k : gset nat) (v : nat) (d : dict) : dict :=
  match d with
  | [] => [(k, v)]
  | (k', v') :: d' =>
      if decide (k = k') then (k, v) :: d' else (k', v') :: dict_set k v d'
  end.

(** ** The algebra object *)

Record OrlikTeraoAlgebra : Type := {
  _M : Matroid;
  _sorting : gmap nat nat;
  _broken_circuits : list (gset nat * nat);
  _indices : list (gset nat);
}.

(** [{x: i for i, x in enumerate(ordering)}] *)
Definition make_sorting (ordering : list nat) : gmap nat nat :=
  foldl (λ m ix, <[ix.2 := ix.1]> m) ∅ (enumerate ordering).

(** The loop of [__init__] over [self._M.circuits()]. *)
Fixpoint build_broken_circuits (sorting : gmap nat nat)
    (cs : list (gset nat)) (d : dict) : outcome dict :=
  match cs with
  | [] => Ok d
  | c :: cs' =>
      L ← sorted (getitem sorting) (elements c);
      match L with
      | [] => Raise IndexError
      | m :: rest =>
          build_broken_circuits sorting cs' (dict_set (list_to_set rest) m d)
      end
  end.

Definition __init__ (M : Matroid) (ordering : list nat) : outcome OrlikTeraoAlgebra :=
  let sorting := make_sorting ordering in
  bcs ← build_broken_circuits sorting (circuits M) [];
  idx ← call (no_broken_circuits_sets M ordering);
  mret {| _M := M; _sorting := sorting; _broken_circuits := bcs; _indices := idx |}.

(** A missing ordering is the sorted ground set. *)
Definition __classcall_private__ (M : Matroid) (ordering : option (list nat))
    : outcome OrlikTeraoAlgebra :=
  match ordering with
  | None => __init__ M (merge_sort (≤) (elements (groundset M)))
  | Some o => __init__ M o
  end.

(** The matroid has a loop: a circuit with a single element. *)
Definition has_loop (M : Matroid) : bool :=
  existsb (λ c : gset nat, bool_decide (size c = 1)) (circuits M).

(** The scan [for bc in self._broken_circuits: if bc.issubset(S)]: the first
    entry, in insertion order, whose key is a subset of [S]. *)
Fixpoint scan (d : dict) (S : gset nat) : option (gset nat * nat) :=
  match d with
  | [] => None
  | (bc, i) :: d' => if decide (bc ⊆ S) then Some (bc, i) else scan d' S
  end.

Section Algebra.
Context {R : Type} `{!BaseRing R} `{!LinearAlgebra R}.

(** *** Elements of the free module *)

(** Modelled from the spec: the elements of [CombinatorialFreeModule]
    (section 3, AlgebraElement) are finite maps from index sets to
    coefficients in which a zero coefficient is never stored; [self.zero()]
    is the empty map. *)
Definition zero : gmap (gset nat) R := ∅.

(** Modelled from the spec: [self.monomial(S)], the one-term element
    mapping [S] to 1 (section 4.4). *)
Definition monomial (S : gset nat) : gmap (gset nat) R := {[ S := rone ]}.

Definition nonzero (c : R) : option R :=
  if decide (c = rzero) then None else Some c.

(** Modelled from the spec: the addition of the free module (section 3),
    as in [r += ...]; a coefficient that becomes zero is dropped. *)
Definition add (x y : gmap (gset nat) R) : gmap (gset nat) R :=
  union_with (λ a b, nonzero (radd a b)) x y.

(** Modelled from the spec: the scalar multiplication of the free module
    (section 3); a coefficient that becomes zero is dropped. *)
Definition scal (c : R) (x : gmap (gset nat) R) : gmap (gset nat) R :=
  omap (λ v, nonzero (rmul c v)) x.

(** [x ** n] *)

Fixpoint rpow (x : R) (n : nat) : R :=
  match n with
  | 0 => rone
  | S n' => rmul x (rpow x n')
  end.

Variable A : OrlikTeraoAlgebra.

(** *** [_flat_module] and [_chi] *)

Definition _flat_module (F : gset nat) : VSpace :=
  row_module (representation_vectors <$> elements F).

(** Modelled from the spec: [M.is_independent(X)] is a query on the
    subsets of the ground set (section 6); the matroid library raises
    [ValueError] for a set that is not one, before the assertion is
    reached. *)
Definition _chi (X : gset nat) : outcome R :=
  if decide (X ⊆ groundset (_M A)) then
    if is_independent (_M A) X then
      let V := _flat_module (closure (_M A) X) in
      Xs ← sorted (getitem (_sorting A)) (elements X);
      call (det ((λ x, echelon_coordinates V (representation_vectors x)) <$> Xs))
    else Raise AssertionError
  else Raise ValueError.

(** *** [subset_image] *)

(** One round of the loop over [enumerate(sorted(bc, key=...))], with
    [rec] the recursive call. *)
Definition reduce_step (rec : gset nat → outcome (gmap (gset nat) R))
    (Si C : gset nat) (lc : R) (r : gmap (gset nat) R) (ij : nat * nat)
    : outcome (gmap (gset nat) R) :=
  coeff ← _chi (C ∖ {[ij.2]});
  if decide (coeff = rzero) then mret r
  else
    q ← call (rdiv coeff lc);
    x ← rec (Si ∖ {[ij.2]});
    mret (add r (scal (rmul (rpow (ropp rone) ij.1) q) x)).

Fixpoint for_loop {St It : Type} (body : St → It → outcome St)
    (r : St) (l : list It) : outcome St :=
  match l with
  | [] => Ok r
  | x :: l' => r' ← body r x; for_loop body r' l'
  end.

Definition subset_image_body (rec : gset nat → outcome (gmap (gset nat) R))
    (S : gset nat) : outcome (gmap (gset nat) R) :=
  match scan (_broken_circuits A) S with
  | Some (bc, i) =>
      if decide (i ∈ S) then Ok zero
      else
        let Si := S ∪ {[i]} in
        let C := bc ∪ {[i]} in
        lc ← _chi bc;
        js ← sorted (getitem (_sorting A)) (elements bc);
        for_loop (reduce_step rec Si C lc) zero (enumerate js)
  | None => Ok (monomial S)
  end.

Fixpoint subset_image_fuel (fuel : nat) (S : gset nat)
    : outcome (gmap (gset nat) R) :=
  match fuel with
  | 0 => OutOfFuel
  | S n => subset_image_body (subset_image_fuel n) S
  end.

End Algebra.

Section TopLevel.
Context {R : Type} `{!BaseRing R} `{!LinearAlgebra R}.
Variable A : OrlikTeraoAlgebra.

(** The rank of an element in the ordering, [0] for an element that the
    ordering does not list. *)
Definition rank (x : nat) : nat := default 0 (_sorting A !! x).

(** The sum of the ranks of the elements of [S]: every recursive call of
    [subset_image] is at a set of smaller weight. *)
Definition weight (S : gset nat) : nat := sum_list_with rank (elements S).

(** [subset_image(S)], run with the fuel that the weight of [S] asks for. *)
Definition subset_image (S : gset nat) : outcome (gmap (gset nat) R) :=
  subset_image_fuel A (Datatypes.S (weight S)) S.

(** Modelled from the spec: [self.basis()[b]] of the algebra framework
    (section 4.5, "return the basis element for b"): the one-term element
    at the index [b]. *)
Definition basis_getitem (b : gset nat) : outcome (gmap (gset nat) R) :=
  Ok (monomial b).

Definition product_on_basis (a b : gset nat) : outcome (gmap (gset nat) R) :=
  if decide (a = ∅) then basis_getitem b
  else if decide (b = ∅) then basis_getitem a
  else if negb (bool_decide (a ## b)) then Ok zero
  else subset_image (b ∪ a).

Definition one_basis : gset nat := ∅.

Definition degree_on_basis (m : gset nat) : nat := size m.

(** [Family(sorted(groundset), lambda i: subset_image(frozenset([i])))] *)
Definition algebra_generators : outcome (list (nat * gmap (gset nat) R)) :=
  mapM (λ i, x ← subset_image {[i]}; mret (i, x))
       (merge_sort (≤) (elements (groundset (_M A)))).

(** [S] is an NBC set: it contains no recorded broken circuit. *)
Definition is_nbc (S : gset nat) : bool :=
  forallb (λ e : gset nat * nat, negb (bool_decide (e.1 ⊆ S))) (_broken_circuits A).

End TopLevel.

(** ** Predicates used by the properties *)

Definition le_key (a b : nat * nat) : Prop := a.1 ≤ b.1.

(** Two elements are in key order. *)
Definition key_le (key : nat → outcome nat) (a b : nat) : Prop :=
  ∃ ka kb, key a = Ok ka ∧ key b = Ok kb ∧ ka ≤ kb.

(** Distinct elements have distinct ranks. *)
Definition sorting_inj (sorting : gmap nat nat) : Prop :=
  ∀ x y r, sorting !! x = Some r → sorting !! y = Some r → x = y.

(** What [__init__] records for a circuit [c]: [i] is the element of [c]
    of least rank and [bc] is the rest of [c]. *)
Definition broken (sorting : gmap nat nat) (c bc : gset nat) (i : nat) : Prop :=
  i ∈ c ∧ bc = c ∖ {[i]} ∧
  ∃ ri, sorting !! i = Some ri ∧
        ∀ j, j ∈ bc → ∃ rj, sorting !! j = Some rj ∧ ri < rj.

(** What the constructor establishes. *)
Record well_built (A : OrlikTeraoAlgebra) : Prop := {
  wb_inj : sorting_inj (_sorting A);
  wb_entries : ∀ bc i, (bc, i) ∈ _broken_circuits A →
    ∃ c, c ∈ circuits (_M A) ∧ broken (_sorting A) c bc i;
  wb_keys : ∀ c, c ∈ circuits (_M A) →
    ∃ i, broken (_sorting A) c (c ∖ {[i]}) i ∧ c ∖ {[i]} ∈ (_broken_circuits A).*1;
}.

(** The circuits of a matroid: no circuit contains another, two circuits
    that share an element [e] contain a third one that avoids [e], and a
    set is independent when it contains no circuit. *)
Record matroid_axioms (M : Matroid) : Prop := {
  circuits_antichain : ∀ c1 c2,
    c1 ∈ circuits M → c2 ∈ circuits M → c1 ⊆ c2 → c1 = c2;
  circuit_elimination : ∀ c1 c2 e,
    c1 ∈ circuits M → c2 ∈ circuits M → c1 ≠ c2 → e ∈ c1 → e ∈ c2 →
    ∃ c3, c3 ∈ circuits M ∧ c3 ⊆ (c1 ∪ c2) ∖ {[e]};
  independent_spec : ∀ X,
    is_independent M X = true ↔ ∀ c, c ∈ circuits M → c ⊈ X;
}.

(** The first two axioms, checked on a list of circuits. *)
Definition check_circuit_axioms (cs : list (gset nat)) : bool :=
  forallb (λ c1 : gset nat, forallb (λ c2 : gset nat,
    bool_decide (c1 = c2) ||
    (negb (bool_decide (c1 ⊆ c2)) &&
     forallb (λ e, negb (bool_decide (e ∈ c2)) ||
                   existsb (λ c3 : gset nat,
                     bool_decide (c3 ⊆ (c1 ∪ c2) ∖ {[e]})) cs)
             (elements c1))) cs) cs.

(** Every conversion [R(coeff / lc)] that [subset_image] can ask for
    succeeds: the quotient of two values of [_chi], the upper one nonzero. *)
Definition divisions_exact {R : Type} `{!BaseRing R} `{!LinearAlgebra R}
    (A : OrlikTeraoAlgebra) : Prop :=
  ∀ (X Y : gset nat) (lc coeff : R),
    _chi A X = Ok lc → _chi A Y = Ok coeff → coeff ≠ rzero →
    ∃ q, rdiv coeff lc = inr q.

(** [_chi] returns on the independent subsets of the ground set that the
    ordering ranks: the determinant converts into [R]. *)
Definition chi_defined {R : Type} `{!BaseRing R} `{!LinearAlgebra R}
    (A : OrlikTeraoAlgebra) : Prop :=
  ∀ X : gset nat,
    X ⊆ groundset (_M A) → is_independent (_M A) X = true →
    X ⊆ dom (_sorting A) → ∃ v : R, _chi A X = Ok v.

(** Every index of [r] is an NBC set. *)
Definition nbc_keys {R : Type} (A : OrlikTeraoAlgebra) (r : gmap (gset nat) R) : Prop :=
  ∀ K, is_Some (r !! K) → is_nbc A K = true.

(** ** The rewriting sum *)

Section Rewrite.
Context {R : Type} `{!BaseRing R} `{!LinearAlgebra R}.
Variable A : OrlikTeraoAlgebra.

(** The term of the sum at the element [j] of [bc] in position [ind]:
    [(-1)^ind * (chi((bc ∪ {i}) ∖ {j}) / chi(bc)) * subset_image((S ∪ {i}) ∖ {j})],
    and no term when [chi((bc ∪ {i}) ∖ {j})] is zero. *)
Definition rewrite_term (S bc : gset nat) (i : nat) (lc : R) (ij : nat * nat)
    : outcome (option (gmap (gset nat) R)) :=
  coeff ← _chi A ((bc ∪ {[i]}) ∖ {[ij.2]});
  if decide (coeff = rzero) then mret None
  else
    q ← call (rdiv coeff lc);
    x ← subset_image A ((S ∪ {[i]}) ∖ {[ij.2]});
    mret (Some (scal (rmul (rpow (ropp rone) ij.1) q) x)).

Definition sum_terms (ts : list (gmap (gset nat) R)) : gmap (gset nat) R :=
  foldl add zero ts.

(** The sum over the elements of [bc] in ascending order, numbered from 0. *)
Definition rewrite_sum (S bc : gset nat) (i : nat) : outcome (gmap (gset nat) R) :=
  lc ← _chi A bc;
  js ← sorted (getitem (_sorting A)) (elements bc);
  ts ← mapM (rewrite_term S bc i lc) (enumerate js);
  mret (sum_terms (omap id ts)).
End Rewrite.

(** ** Memoisation and the dynamic check of the argument *)

(** The Python objects that a caller may pass to [subset_image]. *)
Inductive PyObject : Type :=
  | PyFrozenset (S : gset nat)
  | PySet (S : gset nat)
  | PyList (l : list nat)
  | PyTuple (l : list nat)
  | PyInt (n : Z)
  | PyNone.

(** Mutable collections have no hash. *)
Definition hashable (o : PyObject) : bool :=
  match o with
  | PySet _ | PyList _ => false
  | _ => true
  end.

Section Memo.
Context {R : Type} `{!BaseRing R} `{!LinearAlgebra R}.
Variable A : OrlikTeraoAlgebra.

(** A computation that reads and extends the memo table of
    [subset_image]; what was stored before an exception stays. *)
Definition memoM (X : Type) : Type :=
  gmap (gset nat) (gmap (gset nat) R) → outcome X * gmap (gset nat) (gmap (gset nat) R).

#[global] Instance memoM_ret : MRet memoM := λ X x c, (Ok x, c).
#[global] Instance memoM_bind : MBind memoM := λ X Y f m c,
  match m c with
  | (Ok x, c') => f x c'
  | (Raise e, c') => (Raise e, c')
  | (OutOfFuel, c') => (OutOfFuel, c')
  end.

Definition lift {X} (o : outcome X) : memoM X := λ c, (o, c).

(** Modelled from the spec: the decorator [@cached_method] (sections 4.4
    and 7): a stored result is returned without recomputation, a result
    is stored when the call returns, and a call that raises stores
    nothing for its key. *)
Definition cached (f : gset nat → memoM (gmap (gset nat) R)) (S : gset nat)
    : memoM (gmap (gset nat) R) := λ c,
  match c !! S with
  | Some r => (Ok r, c)
  | None =>
      match f S c with
      | (Ok r, c') => (Ok r, <[S := r]> c')
      | (o, c') => (o, c')
      end
  end.

Definition reduce_step_memo (rec : gset nat → memoM (gmap (gset nat) R))
    (Si C : gset nat) (lc : R) (r : gmap (gset nat) R) (ij : nat * nat)
    : memoM (gmap (gset nat) R) :=
  coeff ← lift (_chi A (C ∖ {[ij.2]}));
  if decide (coeff = rzero) then mret r
  else
    q ← lift (call (rdiv coeff lc));
    x ← rec (Si ∖ {[ij.2]});
    mret (add r (scal (rmul (rpow (ropp rone) ij.1) q) x)).

Fixpoint for_loop_memo {St It : Type} (body : St → It → memoM St)
    (r : St) (l : list It) : memoM St :=
  match l with
  | [] => mret r
  | x :: l' => r' ← body r x; for_loop_memo body r' l'
  end.

Definition subset_image_body_memo (rec : gset nat → memoM (gmap (gset nat) R))
    (S : gset nat) : memoM (gmap (gset nat) R) :=
  match scan (_broken_circuits A) S with
  | Some (bc, i) =>
      if decide (i ∈ S) then mret zero
      else
        let Si := S ∪ {[i]} in
        let C := bc ∪ {[i]} in
        lc ← lift (_chi A bc);
        js ← lift (sorted (getitem (_sorting A)) (elements bc));
        for_loop_memo (reduce_step_memo rec Si C lc) zero (enumerate js)
  | None => mret (monomial S)
  end.

Fixpoint subset_image_memo (fuel : nat) (S : gset nat)
    : memoM (gmap (gset nat) R) :=
  match fuel with
  | 0 => lift OutOfFuel
  | Datatypes.S n => cached (subset_image_body_memo (subset_image_memo n)) S
  end.

(** The method as a caller reaches it.  The body raises [ValueError]
    unless the argument is a [frozenset].  Modelled from the spec: the memo
    table of [@cached_method] needs a hashable key (section 4.4, "not a
    mutable collection, since it is used as a cache key"), and a mutable
    collection raises [TypeError] before the body runs. *)
Definition cached_subset_image (fuel : nat) (arg : PyObject)
    : memoM (gmap (gset nat) R) :=
  if hashable arg then
    match arg with
    | PyFrozenset X => subset_image_memo fuel X
    | _ => lift (Raise ValueError)
    end
  else lift (Raise TypeError).

(** Every stored result is the value of [subset_image] at its key. *)
Definition memo_sound (c : gmap (gset nat) (gmap (gset nat) R)) : Prop :=
  ∀ S r, c !! S = Some r → subset_image A S = Ok r.

(** [m] computes [o] and extends a sound table into a sound table. *)
Definition computes {X} (m : memoM X) (o : outcome X) : Prop :=
  ∀ c, memo_sound c → ∃ c', m c = (o, c') ∧ memo_sound c' ∧ c ⊆ c'.
End Memo.

(** ** The rest of the class *)

(** What one round of the loop of [__init__] records for the circuit [c]:
    [L = sorted(c, key=...)], then the key [frozenset(L[1:])] and the value
    [L[0]]. *)
Definition circuit_entry (sorting : gmap nat nat) (c : gset nat)
    : outcome (gset nat * nat) :=
  L ← sorted (getitem sorting) (elements c);
  match L with
  | [] => Raise IndexError
  | m :: rest => Ok (list_to_set rest, m)
  end.

(** [_sort_key(x)]: the pair [(-len(x), sorted(x))], compared as Python
    compares tuples. *)
Definition _sort_key (x : gset nat) : Z * list nat :=
  ((- Z.of_nat (size x))%Z, merge_sort (≤) (elements x)).

(** The order in which Python compares two lists of integers, and two
    pairs of an integer and a list: by the first place where they differ,
    a proper prefix coming first. *)
Fixpoint list_lt (l k : list nat) : bool :=
  match l, k with
  | [], [] => false
  | [], _ :: _ => true
  | _ :: _, [] => false
  | x :: l', y :: k' => (x <? y) || ((x =? y) && list_lt l' k')
  end.

Definition tuple_lt (a b : Z * list nat) : bool :=
  (a.1 <? b.1)%Z || ((a.1 =? b.1)%Z && list_lt a.2 b.2).

(** [_repr_term(m)]: ["OT{{{}}}".format(', '.join(str(t) for t in sorted(m)))],
    with [str] the decimal numeral of an element. *)
Definition _repr_term (m : gset nat) : string :=
  "OT{" +:+ String.concat ", " (pretty <$> merge_sort (≤) (elements m)) +:+ "}".

(** A string without a comma, and what follows a numeral in a printed
    list: nothing, or a comma and more. *)
Definition comma : Ascii.ascii := Ascii.ascii_of_nat 44.

Fixpoint comma_free (s : string) : Prop :=
  match s with
  | EmptyString => True
  | String c s' => c ≠ comma ∧ comma_free s'
  end.

Definition tail_like (r : string) : Prop :=
  r = EmptyString ∨ ∃ r', r = String comma r'.

(** ** Instances used by the examples *)

(** The rationals, as in [M.orlik_terao_algebra(QQ)]: fractions kept in
    lowest terms, so that equal numbers are equal terms. *)
#[global] Instance Q_eq_dec : EqDecision Q.
Proof. solve_decision. Defined.

#[global] Instance Q_ring : BaseRing Q := {|
  rzero := 0%Q;
  rone := 1%Q;
  radd a b := Qred (a + b);
  rmul a b := Qred (a * b);
  ropp a := Qred (- a);
  rdiv a b :=
    if decide (b = 0%Q) then inl ZeroDivisionError else inr (Qred (a / b));
|}.

(** The integers, as in [M.orlik_terao_algebra(ZZ)]: a quotient converts
    when it is an integer. *)
#[global] Instance Z_ring : BaseRing Z := {|
  rzero := 0%Z;
  rone := 1%Z;
  radd := Z.add;
  rmul := Z.mul;
  ropp := Z.opp;
  rdiv a b :=
    if decide (b = 0%Z) then inl ZeroDivisionError
    else if decide ((a mod b)%Z = 0%Z) then inr (a / b)%Z
    else inl TypeError;
|}.

(** Vectors and matrices over the rationals, for [QQ_algebra] below. *)
Definition entry (v : list Q) (c : nat) : Q := nth c v 0%Q.

Definition vscale (a : Q) (v : list Q) : list Q := map (λ x, Qred (a * x)) v.

Definition vsub (v w : list Q) : list Q := zip_with (λ x y, Qred (x - y)) v w.

(** Clear the column [c] of [v] with the row [p], whose entry at [c] is 1. *)
Definition eliminate (c : nat) (p v : list Q) : list Q :=
  vsub v (vscale (entry v c) p).

Fixpoint find_pivot (c : nat) (rows : list (list Q))
    : option (list Q * list (list Q)) :=
  match rows with
  | [] => None
  | r :: rs =>
      if decide (entry r c = 0%Q) then
        match find_pivot c rs with
        | Some (p, rest) => Some (p, r :: rest)
        | None => None
        end
      else Some (r, rs)
  end.

(** Reduced row echelon form, column by column: the basis rows found so
    far, each with the column of its pivot. *)
Fixpoint rref_from (cols : list nat) (basis : list (nat * list Q))
    (rows : list (list Q)) : list (nat * list Q) :=
  match cols with
  | [] => basis
  | c :: cs =>
      match find_pivot c rows with
      | None => rref_from cs basis rows
      | Some (r, rest) =>
          let p := vscale (Qred (/ entry r c)) r in
          rref_from cs
            (map (λ kb : nat * list Q, (kb.1, eliminate c p kb.2)) basis ++ [(c, p)])
            (map (eliminate c p) rest)
      end
  end.

Definition drop_col (j : nat) (v : list Q) : list Q := take j v ++ drop (S j) v.

(** The determinant, by expansion along the first row. *)
Fixpoint determinant (n : nat) (m : list (list Q)) : Q :=
  match n, m with
  | S n', r :: rows =>
      foldl (λ acc jx,
               Qred (acc + (if Nat.even jx.1 then 1 else -1) * jx.2 *
                           determinant n' (map (drop_col jx.1) rows)))
            0%Q (imap pair r)
  | _, _ => 1%Q
  end.

(** Modelled from the spec: the linear algebra library (section 6) over the
    rationals, for a matroid represented by the columns of a matrix with
    [dim] rows: the row module of a list of vectors is given by its reduced
    row echelon basis, the echelon coordinates of a vector of the module
    are its entries at the pivots, and [det] is the determinant. *)
Definition QQ_algebra (dim : nat) (columns : list (list Q)) : LinearAlgebra Q := {|
  Vec := list Q;
  VSpace := list (nat * list Q);
  representation_vectors x := nth x columns [];
  row_module rows := rref_from (seq 0 dim) [] rows;
  echelon_coordinates V v := map (λ kb : nat * list Q, entry v kb.1) V;
  det m := inr (determinant (length m) m);
  det_nil := eq_refl;
|}.

(** A table of determinants: a representation all of whose determinants in
    flat coordinates are [1]. *)
#[global] Instance unit_determinants : LinearAlgebra Z := {|
  Vec := unit;
  VSpace := unit;
  representation_vectors _ := tt;
  row_module _ := tt;
  echelon_coordinates _ _ := tt;
  det _ := inr 1%Z;
  det_nil := eq_refl;
|}.

Definition contains_circuit (cs : list (gset nat)) (X : gset nat) : bool :=
  existsb (λ c : gset nat, bool_decide (c ⊆ X)) cs.

Definition sublists {A} (l : list A) : list (list A) :=
  foldr (λ x acc, acc ++ (cons x <$> acc)) [[]] l.

Definition subsets (E : gset nat) : list (gset nat) :=
  list_to_set <$> sublists (elements E).

(** Modelled from the spec: the matroid library (section 6) for a matroid
    given by its circuits: a set is independent when it contains no
    circuit, the closure of [X] adds the elements that close a circuit with
    [X], and [no_broken_circuits_sets(ordering)] lists the subsets of the
    ground set that contain no broken circuit. *)
Definition matroid_of_circuits (E : gset nat) (cs : list (gset nat)) : Matroid := {|
  groundset := E;
  circuits := cs;
  is_independent X := negb (contains_circuit cs X);
  closure X :=
    filter (λ e, e ∈ X ∨ existsb (λ c : gset nat,
                   bool_decide (e ∈ c ∧ c ∖ {[e]} ⊆ X)) cs = true) E;
  no_broken_circuits_sets ordering :=
    match build_broken_circuits (make_sorting ordering) cs [] with
    | Ok d =>
        inr (filter (λ X : gset nat, forallb (λ e : gset nat * nat,
                       negb (bool_decide (e.1 ⊆ X))) d = true) (subsets E))
    | Raise e => inl e
    | OutOfFuel => inr []
    end;
|}.

(** The rank of the columns listed in [X], and the subsets of the ground
    set that are dependent while all their subsets with one element less
    are not: the circuits of the column matroid. *)
Definition column_rank (dim : nat) (columns : list (list Q)) (X : gset nat) : nat :=
  length (rref_from (seq 0 dim) [] ((λ x, nth x columns []) <$> elements X)).

Definition column_independent (dim : nat) (columns : list (list Q)) (X : gset nat) : bool :=
  bool_decide (column_rank dim columns X = size X).

Definition column_circuits (dim : nat) (columns : list (list Q)) : list (gset nat) :=
  filter (λ X : gset nat,
            column_independent dim columns X = false ∧
            forallb (λ x, column_independent dim columns (X ∖ {[x]})) (elements X) = true)
         (subsets (list_to_set (seq 0 (length columns)))).

(** [matroids.Wheel(3)]: the columns of its matrix and its circuits, the
    four triangles and the three squares of the wheel. *)
Definition wheel3_columns : list (list Q) :=
  [[1; 0; 0]; [0; 1; 0]; [0; 0; 1]; [1; -1; 0]; [0; 1; -1]; [-1; 0; 1]]%Q.

#[global] Instance wheel3_representation : LinearAlgebra Q :=
  QQ_algebra 3 wheel3_columns.

Definition M_wheel : Matroid :=
  matroid_of_circuits {[0; 1; 2; 3; 4; 5]}
    [{[0; 1; 3]}; {[1; 2; 4]}; {[0; 2; 5]}; {[3; 4; 5]};
     {[0; 2; 3; 4]}; {[1; 2; 3; 5]}; {[0; 1; 4; 5]}].

(** The value of a construction that the examples know to succeed. *)
Definition built (M : Matroid) (o : outcome OrlikTeraoAlgebra) : OrlikTeraoAlgebra :=
  match o with
  | Ok a => a
  | _ => {| _M := M; _sorting := ∅; _broken_circuits := []; _indices := [] |}
  end.

Definition OT_wheel : OrlikTeraoAlgebra :=
  built M_wheel (__classcall_private__ M_wheel None).

Definition OT_wheel_reversed : OrlikTeraoAlgebra :=
  built M_wheel (__classcall_private__ M_wheel (Some [5; 4; 3; 2; 1; 0])).

(** The column matroid of the matrix [(0 1)]: the element [0] is a loop. *)
Definition loop_columns : list (list Q) := [[0]; [1]]%Q.

Definition loop_representation : LinearAlgebra Q := QQ_algebra 1 loop_columns.

Definition M_loop : Matroid := matroid_of_circuits {[0; 1]} [{[0]}].

Definition OT_loop : OrlikTeraoAlgebra :=
  built M_loop (__classcall_private__ M_loop None).

(** The graphic matroids of the tests of the docstring of [subset_image],
    given by their circuits. *)
Definition M_graph : Matroid :=
  matroid_of_circuits {[0; 1; 2; 3; 4]} [{[0; 1]}; {[2; 3; 4]}].

Definition OT_graph : OrlikTeraoAlgebra :=
  built M_graph (__classcall_private__ M_graph None).

Definition M_multi : Matroid :=
  matroid_of_circuits {[0; 1; 2; 3; 4; 5]}
    [{[0; 1]}; {[0; 2; 4]}; {[0; 2; 5]}; {[0; 3; 4]}; {[0; 3; 5]}; {[1; 2; 4]};
     {[1; 2; 5]}; {[1; 3; 4]}; {[1; 3; 5]}; {[2; 3]}; {[4; 5]}].

Definition OT_multi : OrlikTeraoAlgebra :=
  built M_multi (__classcall_private__ M_multi None).

(** Parallel elements over the integers, as the columns of the matrix
    [(1 2 3 ...)]: the module of the only flat is spanned by [(1)], the
    coordinate of a column is its entry, and the determinant of a matrix
    with one row is that entry. *)
Definition parallel_representation : LinearAlgebra Z := {|
  Vec := Z;
  VSpace := unit;
  representation_vectors x := (Z.of_nat x + 1)%Z;
  row_module _ := tt;
  echelon_coordinates _ v := v;
  det rows := inr (match rows with [] => 1%Z | v :: _ => v end);
  det_nil := eq_refl;
|}.

Definition M_parallel : Matroid := matroid_of_circuits {[0; 1]} [{[0; 1]}].

Definition OT_parallel : OrlikTeraoAlgebra :=
  built M_parallel (__classcall_private__ M_parallel None).

(** The first three columns of [(1 2 3 ...)]: any two of them form a
    circuit. *)
Definition M_triple : Matroid :=
  matroid_of_circuits {[0; 1; 2]} [{[0; 1]}; {[1; 2]}; {[0; 2]}].

Definition OT_triple : OrlikTeraoAlgebra :=
  built M_triple (__classcall_private__ M_triple None).

(** Two parallel elements over the integers with a rational
    representation, the columns of the matrix [(1 1/2)]: a determinant
    converts when it is an integer. *)
Definition half_representation : LinearAlgebra Z := {|
  Vec := Q;
  VSpace := unit;
  representation_vectors x := nth x [1; 1 # 2]%Q 0%Q;
  row_module _ := tt;
  echelon_coordinates _ v := v;
  det rows :=
    match rows with
    | [] => inr 1%Z
    | v :: _ =>
        if decide (Qden (Qred v) = 1%positive) then inr (Qnum (Qred v))
        else inl TypeError
    end;
  det_nil := eq_refl;
|}.

(** * Properties *)

(** ** The outcome monad *)

Lemma bind_Ok {A B} (x : outcome A) (f : A → outcome B) (b : B) :
  x ≫= f = Ok b ↔ ∃ a, x = Ok a ∧ f a = Ok b.
Proof.
  destruct x as [a|e|]; simpl; split; try naive_solver.
Qed.

Lemma bind_not_OutOfFuel {A B} (x : outcome A) (f : A → outcome B) :
  x ≠ OutOfFuel → (∀ a, x = Ok a → f a ≠ OutOfFuel) → x ≫= f ≠ OutOfFuel.
Proof. destruct x; simpl; naive_solver. Qed.

Lemma call_not_OutOfFuel {A} (x : exn + A) : call x ≠ OutOfFuel.
Proof. by destruct x. Qed.

Lemma mapM_Ok {A B} (f : A → outcome B) (l : list A) (k : list B) :
  mapM f l = Ok k ↔ Forall2 (λ x y, f x = Ok y) l k.
Proof.
  revert k. induction l as [|x l IH]; intros k; simpl.
  - split; [intros [= <-]; constructor | by inversion 1].
  - split.
    + intros (y & Hy & Hk)%bind_Ok. apply bind_Ok in Hk as (k' & Hk' & [= <-]).
      constructor; [done | by apply IH].
    + inversion 1 as [|? y ? k' Hy Hk']; subst.
      apply bind_Ok. exists y. split; [done|].
      apply bind_Ok. exists k'. split; [by apply IH | done].
Qed.

Lemma mapM_cons {A B} (f : A → outcome B) (x : A) (l : list A) :
  mapM f (x :: l) = y ← f x; k ← mapM f l; mret (y :: k).
Proof. done. Qed.

Lemma mapM_total {A B} (f : A → outcome B) (l : list A) :
  (∀ x, x ∈ l → ∃ y, f x = Ok y) → ∃ k, mapM f l = Ok k.
Proof.
  induction l as [|x l IH]; intros Hl; simpl; [by eexists|].
  destruct (Hl x) as [y Hy]; [by left|]. rewrite Hy. simpl.
  destruct IH as [k Hk]; [intros; apply Hl; by right|].
  rewrite Hk. by eexists.
Qed.

Lemma mapM_not_OutOfFuel {A B} (f : A → outcome B) (l : list A) :
  (∀ x, f x ≠ OutOfFuel) → mapM f l ≠ OutOfFuel.
Proof.
  intros Hf. induction l as [|x l IH]; simpl; [done|].
  apply bind_not_OutOfFuel; [done|]. intros y _.
  apply bind_not_OutOfFuel; [done|]. done.
Qed.

(** ** [sorted] *)

Lemma insert_by_key_perm kx l : insert_by_key kx l ≡ₚ kx :: l.
Proof.
  induction l as [|ky l IH]; simpl; [done|].
  case_decide; [done|]. rewrite IH. apply Permutation_swap.
Qed.

Lemma sort_by_key_perm l : sort_by_key l ≡ₚ l.
Proof.
  induction l as [|kx l IH]; simpl; [done|].
  by rewrite insert_by_key_perm, IH.
Qed.

Lemma insert_by_key_sorted kx l :
  StronglySorted le_key l → StronglySorted le_key (insert_by_key kx l).
Proof.
  induction 1 as [|ky l Hl IH Hky]; simpl.
  - repeat constructor.
  - case_decide as Hle.
    + constructor; [by constructor|]. constructor; [done|].
      eapply Forall_impl; [exact Hky|]. unfold le_key in *. intros; simpl in *; lia.
    + constructor; [done|]. rewrite insert_by_key_perm.
      constructor; [unfold le_key; lia | done].
Qed.

Lemma sort_by_key_sorted l : StronglySorted le_key (sort_by_key l).
Proof.
  induction l; simpl; [constructor | by apply insert_by_key_sorted].
Qed.

Section sorted.
Variable key : nat → outcome nat.


Lemma sorted_Ok l L :
  sorted key l = Ok L →
  L ≡ₚ l ∧ StronglySorted (key_le key) L ∧ ∀ x, x ∈ l → ∃ k, key x = Ok k.
Proof.
  unfold sorted. intros (kl & Hkl & [= <-])%bind_Ok.
  apply mapM_Ok in Hkl.
  assert (kl.*2 = l ∧ Forall (λ kx, key kx.2 = Ok kx.1) kl) as [Hl Hk].
  { induction Hkl as [|x kx l kl Hx _ [IH1 IH2]]; [by split; constructor|].
    apply bind_Ok in Hx as (k & Hk & [= <-]). simpl.
    split; [by f_equal | by constructor]. }
  split; [by rewrite sort_by_key_perm, Hl|]. split.
  - assert (Forall (λ kx, key kx.2 = Ok kx.1) (sort_by_key kl)) as Hs
      by by rewrite sort_by_key_perm.
    induction (sort_by_key_sorted kl) as [|kx s Hs' IH Hkx]; simpl; [constructor|].
    apply Forall_cons in Hs as [Hx Hs]. constructor; [by apply IH|].
    clear IH Hs'. induction Hkx as [|ky s Hle _ IH]; simpl; [constructor|].
    apply Forall_cons in Hs as [Hy Hs]. constructor; [|by apply IH].
    by exists kx.1, ky.1.
  - intros x Hx. rewrite <-Hl in Hx.
    apply list_elem_of_fmap in Hx as (kx & -> & Hin).
    rewrite Forall_forall in Hk. eauto.
Qed.

Lemma sorted_total l : (∀ x, x ∈ l → ∃ k, key x = Ok k) → ∃ L, sorted key l = Ok L.
Proof.
  intros Hl. unfold sorted.
  destruct (mapM_total (λ x, k ← key x; mret (k, x)) l) as [kl Hkl].
  { intros x [k Hk]%Hl. rewrite Hk. by eexists. }
  rewrite Hkl. by eexists.
Qed.

Lemma sorted_not_OutOfFuel l : (∀ x, key x ≠ OutOfFuel) → sorted key l ≠ OutOfFuel.
Proof.
  intros Hk. unfold sorted. apply bind_not_OutOfFuel; [|done].
  apply mapM_not_OutOfFuel. intros x. by apply bind_not_OutOfFuel.
Qed.
End sorted.

Lemma getitem_Ok d x r : getitem d x = Ok r ↔ d !! x = Some r.
Proof. unfold getitem. destruct (d !! x); naive_solver. Qed.

Lemma getitem_not_OutOfFuel d x : getitem d x ≠ OutOfFuel.
Proof. unfold getitem. by destruct (d !! x). Qed.

(** ** The ordering *)

Lemma foldl_sorting_Some (ps : list (nat * nat)) (m : gmap nat nat) x r :
  foldl (λ m ix, <[ix.2 := ix.1]> m) m ps !! x = Some r →
  m !! x = Some r ∨ (r, x) ∈ ps.
Proof.
  revert m. induction ps as [|[i y] ps IH]; intros m; simpl; [by left|].
  intros [Hm|Hin]%IH; [|by right; right].
  destruct (decide (y = x)) as [->|Hne].
  - rewrite lookup_insert_eq in Hm. injection Hm as ->. right; left.
  - rewrite lookup_insert_ne in Hm by done. by left.
Qed.

Lemma foldl_sorting_is_Some (ps : list (nat * nat)) (m : gmap nat nat) x :
  is_Some (foldl (λ m ix, <[ix.2 := ix.1]> m) m ps !! x) ↔
  is_Some (m !! x) ∨ x ∈ ps.*2.
Proof.
  revert m. induction ps as [|[i y] ps IH]; intros m; simpl.
  - split; [by left | intros [?|[]%elem_of_nil]; done].
  - rewrite IH, lookup_insert_is_Some, elem_of_cons.
    destruct (decide (y = x)); [subst|]; intuition congruence.
Qed.

Lemma make_sorting_Some ordering x r :
  make_sorting ordering !! x = Some r → ordering !! r = Some x.
Proof.
  unfold make_sorting, enumerate.
  intros [Hm|Hin]%foldl_sorting_Some; [by rewrite lookup_empty in Hm|].
  apply elem_of_lookup_imap in Hin as (i & y & [= -> ->] & Hy). done.
Qed.

Lemma make_sorting_is_Some ordering x :
  is_Some (make_sorting ordering !! x) ↔ x ∈ ordering.
Proof.
  unfold make_sorting, enumerate. rewrite foldl_sorting_is_Some.
  rewrite lookup_empty, is_Some_alt. split.
  - intros [[]|Hx]. apply list_elem_of_fmap in Hx as ([i y] & -> & Hin).
    apply elem_of_lookup_imap in Hin as (i' & y' & [= -> ->] & Hy).
    by eapply list_elem_of_lookup_2.
  - intros (i & Hi)%list_elem_of_lookup. right.
    apply list_elem_of_fmap. exists (i, x). split; [done|].
    apply elem_of_lookup_imap. by exists i, x.
Qed.

Lemma make_sorting_inj ordering : sorting_inj (make_sorting ordering).
Proof.
  intros x y r Hx%make_sorting_Some Hy%make_sorting_Some. congruence.
Qed.

(** ** The dictionary of broken circuits *)

Lemma elem_of_dict_set k v (d : dict) e :
  e ∈ dict_set k v d → e = (k, v) ∨ e ∈ d.
Proof.
  induction d as [|[k' v'] d IH]; simpl.
  - intros ->%list_elem_of_singleton. by left.
  - case_decide; subst.
    + intros [->|?]%elem_of_cons; [by left | by right; right].
    + intros [->|[->|?]%IH]%elem_of_cons;
        [by right; left | by left | by right; right].
Qed.

Lemma dict_set_keys k v (d : dict) k' :
  k' ∈ (dict_set k v d).*1 ↔ k' = k ∨ k' ∈ d.*1.
Proof.
  induction d as [|[k0 v0] d IH]; simpl.
  - rewrite list_elem_of_singleton, elem_of_nil. naive_solver.
  - case_decide; subst; simpl; rewrite !elem_of_cons; [|rewrite IH]; naive_solver.
Qed.

Lemma scan_Some (d : dict) S bc i :
  scan d S = Some (bc, i) → (bc, i) ∈ d ∧ bc ⊆ S.
Proof.
  induction d as [|[bc' i'] d IH]; simpl; [done|].
  case_decide.
  - intros [= -> ->]. split; [by left | done].
  - intros [??]%IH. split; [by right | done].
Qed.

Lemma scan_None (d : dict) S :
  scan d S = None ↔ ∀ bc, bc ∈ d.*1 → bc ⊈ S.
Proof.
  induction d as [|[bc' i'] d IH]; simpl.
  - split; [by intros _ ? []%elem_of_nil | done].
  - case_decide.
    + split; [done|]. intros Hall. destruct (Hall bc'); [by left | done].
    + rewrite IH. split.
      * intros Hall bc [->|?]%elem_of_cons; [done | by apply Hall].
      * intros Hall bc ?. apply Hall. by right.
Qed.

Lemma scan_is_Some (d : dict) S bc :
  bc ∈ d.*1 → bc ⊆ S → is_Some (scan d S).
Proof.
  intros Hin Hsub. destruct (scan d S) eqn:Hscan; [by eexists|].
  rewrite scan_None in Hscan. by destruct (Hscan bc).
Qed.

Lemma sorted_circuit sorting c m rest :
  sorting_inj sorting →
  sorted (getitem sorting) (elements c) = Ok (m :: rest) →
  broken sorting c (list_to_set rest) m.
Proof.
  intros Hinj (Hperm & Hsorted & Hkeys)%sorted_Ok.
  assert (NoDup (m :: rest)) as [Hm Hnd]%NoDup_cons
    by (rewrite Hperm; apply NoDup_elements).
  assert (∀ x, x ∈ c ↔ x = m ∨ x ∈ rest) as Hc.
  { intros x. rewrite <-elem_of_elements, <-Hperm, elem_of_cons. done. }
  split; [apply Hc; by left|]. split.
  { apply set_eq. intros x.
    rewrite elem_of_list_to_set, elem_of_difference, elem_of_singleton, Hc.
    naive_solver. }
  apply StronglySorted_inv in Hsorted as [_ Hle].
  destruct (Hkeys m) as [ri Hri]; [apply elem_of_elements, Hc; by left|].
  apply getitem_Ok in Hri. exists ri. split; [done|].
  intros j Hj%elem_of_list_to_set.
  rewrite Forall_forall in Hle.
  destruct (Hle j Hj) as (ka & kb & Ha%getitem_Ok & Hb%getitem_Ok & Hab).
  exists kb. split; [done|]. assert (ka = ri) as -> by congruence.
  destruct (decide (ri = kb)) as [->|]; [|lia].
  assert (m = j) as -> by eauto. done.
Qed.

Lemma build_broken_circuits_entries sorting (all cs : list (gset nat)) (d d' : dict) :
  sorting_inj sorting →
  build_broken_circuits sorting cs d = Ok d' →
  (∀ c, c ∈ cs → c ∈ all) →
  (∀ e, e ∈ d → ∃ c, c ∈ all ∧ broken sorting c e.1 e.2) →
  ∀ e, e ∈ d' → ∃ c, c ∈ all ∧ broken sorting c e.1 e.2.
Proof.
  intros Hinj. revert d. induction cs as [|c cs IH]; intros d; simpl.
  - by intros [= ->].
  - intros (L & HL & Hrest)%bind_Ok Hall Hd. destruct L as [|m rest]; [done|].
    eapply IH; [exact Hrest | intros; apply Hall; by right |].
    intros e [->|?]%elem_of_dict_set; [|by apply Hd].
    exists c. split; [apply Hall; by left|]. by apply sorted_circuit.
Qed.

Lemma build_broken_circuits_keys sorting cs (d d' : dict) :
  sorting_inj sorting →
  build_broken_circuits sorting cs d = Ok d' →
  (∀ k, k ∈ d.*1 → k ∈ d'.*1) ∧
  ∀ c, c ∈ cs → ∃ i, broken sorting c (c ∖ {[i]}) i ∧ c ∖ {[i]} ∈ d'.*1.
Proof.
  intros Hinj. revert d. induction cs as [|c cs IH]; intros d; simpl.
  - intros [= ->]. split; [done | by intros ? []%elem_of_nil].
  - intros (L & HL & Hrest)%bind_Ok. destruct L as [|m rest]; [done|].
    destruct (IH _ Hrest) as [Hkeep Hcs].
    pose proof (sorted_circuit _ _ _ _ Hinj HL) as Hb.
    split.
    + intros k Hk. apply Hkeep, dict_set_keys. by right.
    + intros c' [->|Hc']%elem_of_cons; [|by apply Hcs].
      exists m. pose proof Hb as (_ & Heq & _). rewrite <-Heq.
      split; [done|]. apply Hkeep, dict_set_keys. by left.
Qed.

Lemma build_broken_circuits_Ok_iff sorting cs (d : dict) :
  (∃ d', build_broken_circuits sorting cs d = Ok d') ↔
  ∀ c, c ∈ cs → c ≠ ∅ ∧ ∀ x, x ∈ c → is_Some (sorting !! x).
Proof.
  revert d. induction cs as [|c cs IH]; intros d; simpl.
  - split; [by intros _ ? []%elem_of_nil | by eexists].
  - split.
    + intros [d' (L & HL & Hrest)%bind_Ok]. destruct L as [|m rest]; [done|].
      intros c' [->|Hc']%elem_of_cons; [|by eapply IH; eauto].
      apply sorted_Ok in HL as (Hperm & _ & Hkeys). split.
      * intros ->. rewrite elements_empty in Hperm.
        by apply Permutation_nil_r in Hperm.
      * intros x [k Hk%getitem_Ok]%elem_of_elements%Hkeys. by eexists.
    + intros Hall. destruct (Hall c) as [Hne Hkeys]; [by left|].
      destruct (sorted_total (getitem sorting) (elements c)) as [L HL].
      { intros x [r Hr]%elem_of_elements%Hkeys. exists r. by apply getitem_Ok. }
      rewrite HL. simpl. destruct L as [|m rest].
      * apply sorted_Ok in HL as (Hperm & _). symmetry in Hperm.
        apply Permutation_nil_r, elements_empty_inv in Hperm.
        destruct Hne. by apply leibniz_equiv.
      * apply IH. intros; apply Hall; by right.
Qed.

(** ** Algebras built by the constructor *)

Lemma init_Ok M ordering A :
  __init__ M ordering = Ok A ↔
  ∃ bcs idx, build_broken_circuits (make_sorting ordering) (circuits M) [] = Ok bcs ∧
             no_broken_circuits_sets M ordering = inr idx ∧
             A = {| _M := M; _sorting := make_sorting ordering;
                    _broken_circuits := bcs; _indices := idx |}.
Proof.
  unfold __init__. split.
  - intros (bcs & Hbcs & (idx & Hidx & [= <-])%bind_Ok)%bind_Ok.
    exists bcs, idx. split; [done|]. split; [|done].
    by destruct (no_broken_circuits_sets M ordering) as [|?]; simplify_eq/=.
  - intros (bcs & idx & -> & -> & ->). done.
Qed.

Lemma init_well_built M ordering A :
  __init__ M ordering = Ok A →
  well_built A ∧ _M A = M ∧ _sorting A = make_sorting ordering.
Proof.
  intros (bcs & idx & Hbcs & _ & ->)%init_Ok. split; [|done].
  pose proof (make_sorting_inj ordering) as Hinj. split; simpl.
  - done.
  - intros bc i Hin.
    by apply (build_broken_circuits_entries _ (circuits M) _ _ _ Hinj Hbcs
                ltac:(done) ltac:(by intros ? []%elem_of_nil) (bc, i)).
  - by apply (build_broken_circuits_keys _ _ _ _ Hinj Hbcs).
Qed.

Lemma classcall_Some M ordering :
  __classcall_private__ M (Some ordering) = __init__ M ordering.
Proof. done. Qed.

(** ** The weight decreases along the recursion *)

Section weight.
Variable A : OrlikTeraoAlgebra.

Lemma weight_union_singleton S x :
  x ∉ S → weight A ({[x]} ∪ S) = rank A x + weight A S.
Proof. intros Hx. unfold weight. by rewrite elements_union_singleton. Qed.

Lemma weight_swap S i j :
  i ∉ S → j ∈ S → rank A i < rank A j →
  weight A ((S ∪ {[i]}) ∖ {[j]}) < weight A S.
Proof.
  intros Hi Hj Hlt.
  assert (S = {[j]} ∪ S ∖ {[j]}) as HS by by apply union_difference_singleton_L.
  assert ((S ∪ {[i]}) ∖ {[j]} = {[i]} ∪ S ∖ {[j]}) as -> by set_solver.
  rewrite HS at 2. rewrite !weight_union_singleton by set_solver. lia.
Qed.

Lemma broken_rank c bc i j :
  broken (_sorting A) c bc i → j ∈ bc → rank A i < rank A j.
Proof.
  intros (_ & _ & ri & Hri & Hall) Hj. destruct (Hall j Hj) as (rj & Hrj & ?).
  unfold rank. by rewrite Hri, Hrj.
Qed.

Lemma broken_keys c bc i x :
  broken (_sorting A) c bc i → x ∈ c → is_Some (_sorting A !! x).
Proof.
  intros (Hi & -> & ri & Hri & Hall) Hx.
  destruct (decide (x = i)) as [->|]; [by eexists|].
  destruct (Hall x) as (rj & ? & _); [set_solver | by eexists].
Qed.
End weight.

(** ** The loop *)

Section for_loop.
Context {St It : Type}.
Implicit Types (body : St → It → outcome St) (l : list It).

Lemma for_loop_cons body r x l :
  for_loop body r (x :: l) = r' ← body r x; for_loop body r' l.
Proof. done. Qed.

Lemma for_loop_ext body1 body2 r l :
  (∀ r x, x ∈ l → body1 r x = body2 r x) →
  for_loop body1 r l = for_loop body2 r l.
Proof.
  revert r. induction l as [|x l IH]; intros r Hext; simpl; [done|].
  rewrite Hext by by left. destruct (body2 r x); simpl; [|done..].
  apply IH. intros; apply Hext; by right.
Qed.

Lemma for_loop_not_OutOfFuel body r l :
  (∀ r x, x ∈ l → body r x ≠ OutOfFuel) → for_loop body r l ≠ OutOfFuel.
Proof.
  revert r. induction l as [|x l IH]; intros r Hb; simpl; [done|].
  apply bind_not_OutOfFuel; [apply Hb; by left|].
  intros r' _. apply IH. intros; apply Hb; by right.
Qed.

Lemma for_loop_invariant (P : St → Prop) body r l r' :
  P r → (∀ r x r', x ∈ l → P r → body r x = Ok r' → P r') →
  for_loop body r l = Ok r' → P r'.
Proof.
  revert r. induction l as [|x l IH]; intros r Hr Hb; simpl.
  - by intros [= <-].
  - intros (r1 & Hr1 & Hl)%bind_Ok. eapply IH; [|intros; eapply Hb; eauto; by right|done].
    eapply Hb; [by left | done | done].
Qed.

Lemma for_loop_total body r l :
  (∀ r x, x ∈ l → ∃ r', body r x = Ok r') → ∃ r', for_loop body r l = Ok r'.
Proof.
  revert r. induction l as [|x l IH]; intros r Hb; simpl; [by eexists|].
  destruct (Hb r x) as [r1 ->]; [by left|]. simpl.
  apply IH. intros; apply Hb; by right.
Qed.

Lemma for_loop_fixed body r l :
  (∀ x, x ∈ l → body r x = Ok r) → for_loop body r l = Ok r.
Proof.
  induction l as [|x l IH]; intros Hb; simpl; [done|].
  rewrite Hb by by left. simpl. apply IH. intros; apply Hb; by right.
Qed.
End for_loop.

Lemma elem_of_enumerate {A} (l : list A) i x : (i, x) ∈ enumerate l ↔ l !! i = Some x.
Proof.
  unfold enumerate. rewrite elem_of_lookup_imap. split.
  - by intros (i' & x' & [= -> ->] & ?).
  - intros ?. by exists i, x.
Qed.

Lemma elem_of_enumerate_2 {A} (l : list A) (ix : nat * A) : ix ∈ enumerate l → ix.2 ∈ l.
Proof. destruct ix as [i x]. rewrite elem_of_enumerate. apply list_elem_of_lookup_2. Qed.

(** ** The recursion of [subset_image] *)

Section recursion.
Context {R : Type} `{!BaseRing R} `{!LinearAlgebra R}.
Variable A : OrlikTeraoAlgebra.
Implicit Types (S X bc : gset nat) (r : gmap (gset nat) R).

Lemma chi_not_OutOfFuel X : _chi A X ≠ OutOfFuel.
Proof.
  unfold _chi. case_decide; [|done]. destruct (is_independent _ _); [|done].
  apply bind_not_OutOfFuel; [|intros; apply call_not_OutOfFuel].
  apply sorted_not_OutOfFuel, getitem_not_OutOfFuel.
Qed.

(** On an independent subset of the ground set whose elements are ranked,
    [_chi] is the conversion of a determinant. *)
Lemma chi_call X :
  X ⊆ groundset (_M A) → is_independent (_M A) X = true →
  (∀ x, x ∈ X → is_Some (_sorting A !! x)) →
  ∃ rows, _chi A X = call (det rows).
Proof.
  intros Hsub Hind Hkeys. unfold _chi. rewrite decide_True, Hind by done.
  destruct (sorted_total (getitem (_sorting A)) (elements X)) as [Xs HXs].
  { intros x [k Hk]%elem_of_elements%Hkeys. exists k. by apply getitem_Ok. }
  rewrite HXs. by eexists.
Qed.

Lemma subset_image_body_ext rec1 rec2 S :
  (∀ bc i j, scan (_broken_circuits A) S = Some (bc, i) → i ∉ S → j ∈ bc →
             rec1 ((S ∪ {[i]}) ∖ {[j]}) = rec2 ((S ∪ {[i]}) ∖ {[j]})) →
  subset_image_body A rec1 S = subset_image_body A rec2 S.
Proof.
  intros Hext. unfold subset_image_body.
  destruct (scan _ S) as [[bc i]|] eqn:Hscan; [|done].
  case_decide as Hi; [done|].
  destruct (_chi A bc) as [lc| |]; simpl; [|done..].
  destruct (sorted _ (elements bc)) as [js| |] eqn:Hjs; simpl; [|done..].
  apply sorted_Ok in Hjs as (Hperm & _).
  apply for_loop_ext. intros r [ind j] Hj%elem_of_enumerate_2. simpl in Hj.
  unfold reduce_step. simpl.
  rewrite (Hext bc i j) by (by rewrite ?Hperm, ?elem_of_elements in Hj).
  done.
Qed.

Lemma subset_image_body_not_OutOfFuel rec S :
  (∀ bc i j, scan (_broken_circuits A) S = Some (bc, i) → i ∉ S → j ∈ bc →
             rec ((S ∪ {[i]}) ∖ {[j]}) ≠ OutOfFuel) →
  subset_image_body A rec S ≠ OutOfFuel.
Proof.
  intros Hrec. unfold subset_image_body.
  destruct (scan _ S) as [[bc i]|] eqn:Hscan; [|done].
  case_decide as Hi; [done|].
  apply bind_not_OutOfFuel; [apply chi_not_OutOfFuel|]. intros lc _.
  apply bind_not_OutOfFuel;
    [apply sorted_not_OutOfFuel, getitem_not_OutOfFuel|].
  intros js (Hperm & _)%sorted_Ok.
  apply for_loop_not_OutOfFuel. intros r [ind j] Hj%elem_of_enumerate_2.
  simpl in Hj. rewrite Hperm, elem_of_elements in Hj.
  unfold reduce_step. simpl.
  apply bind_not_OutOfFuel; [apply chi_not_OutOfFuel|]. intros coeff _.
  case_decide; [done|].
  apply bind_not_OutOfFuel; [apply call_not_OutOfFuel|]. intros q _.
  apply bind_not_OutOfFuel; [by eapply Hrec|]. done.
Qed.

Hypothesis HA : well_built A.

(** A recursive call is at a set of smaller weight. *)
Lemma recursive_call_weight S bc i j :
  scan (_broken_circuits A) S = Some (bc, i) → i ∉ S → j ∈ bc →
  weight A ((S ∪ {[i]}) ∖ {[j]}) < weight A S.
Proof.
  intros [Hin Hsub]%scan_Some Hi Hj.
  destruct (wb_entries A HA bc i Hin) as (c & _ & Hb).
  apply weight_swap; [done | by apply Hsub | by eapply broken_rank].
Qed.

Lemma subset_image_fuel_stable n m S :
  weight A S < n → weight A S < m →
  subset_image_fuel A n S = subset_image_fuel A m S.
Proof.
  revert m S. induction n as [|n IH]; intros m S Hn Hm; [lia|].
  destruct m as [|m]; [lia|]. simpl.
  apply subset_image_body_ext. intros bc i j Hscan Hi Hj.
  pose proof (recursive_call_weight S bc i j Hscan Hi Hj).
  apply IH; lia.
Qed.

Lemma subset_image_fuel_not_OutOfFuel n S :
  weight A S < n → subset_image_fuel A n S ≠ OutOfFuel.
Proof.
  revert S. induction n as [|n IH]; intros S Hn; [lia|]. simpl.
  apply subset_image_body_not_OutOfFuel. intros bc i j Hscan Hi Hj.
  pose proof (recursive_call_weight S bc i j Hscan Hi Hj).
  apply IH; lia.
Qed.

(** The defining equation of [subset_image], free of fuel. *)
Lemma subset_image_unfold S :
  subset_image A S = subset_image_body A (subset_image A) S.
Proof.
  unfold subset_image at 1. simpl.
  apply subset_image_body_ext. intros bc i j Hscan Hi Hj.
  pose proof (recursive_call_weight S bc i j Hscan Hi Hj).
  unfold subset_image. apply subset_image_fuel_stable; lia.
Qed.

(** Induction along the recursive calls. *)
Lemma subset_image_ind (P : gset nat → Prop) :
  (∀ S, (∀ bc i j, scan (_broken_circuits A) S = Some (bc, i) → i ∉ S → j ∈ bc →
                   P ((S ∪ {[i]}) ∖ {[j]})) → P S) →
  ∀ S, P S.
Proof.
  intros Hstep.
  assert (∀ n S, weight A S < n → P S) as Hn.
  { induction n as [|n IH]; intros S Hn; [lia|].
    apply Hstep. intros bc i j Hscan Hi Hj.
    pose proof (recursive_call_weight S bc i j Hscan Hi Hj).
    apply IH; lia. }
  intros S. apply (Hn (Datatypes.S (weight A S))). lia.
Qed.
End recursion.

(** ** Elements of the free module *)

Section free_module.
Context {R : Type} `{!BaseRing R}.
Implicit Types (x y : gmap (gset nat) R) (K : gset nat).

Lemma add_is_Some x y K :
  is_Some (add x y !! K) → is_Some (x !! K) ∨ is_Some (y !! K).
Proof.
  unfold add. rewrite lookup_union_with.
  destruct (x !! K), (y !! K); simpl; intros [? ?]; eauto.
Qed.

Lemma scal_is_Some (c : R) x K : is_Some (scal c x !! K) → is_Some (x !! K).
Proof.
  unfold scal. rewrite lookup_omap. destruct (x !! K); simpl; [eauto|].
  by intros [? ?].
Qed.

Lemma scal_zero (c : R) : scal c zero = zero.
Proof. unfold scal, zero. apply omap_empty. Qed.

Lemma add_zero_l x : add zero x = x.
Proof.
  apply map_eq. intros K. unfold add, zero.
  rewrite lookup_union_with, lookup_empty. by destruct (x !! K).
Qed.
End free_module.

Lemma is_nbc_scan A K : is_nbc A K = true ↔ scan (_broken_circuits A) K = None.
Proof.
  unfold is_nbc. induction (_broken_circuits A) as [|[bc i] d IH]; simpl; [done|].
  rewrite andb_true_iff, negb_true_iff, bool_decide_eq_false, IH.
  case_decide; naive_solver.
Qed.

Lemma is_nbc_spec A K :
  is_nbc A K = true ↔ ∀ bc, bc ∈ (_broken_circuits A).*1 → bc ⊈ K.
Proof. by rewrite is_nbc_scan, scan_None. Qed.

Section keys.
Context {R : Type} `{!BaseRing R} `{!LinearAlgebra R}.
Variable A : OrlikTeraoAlgebra.

Lemma nbc_keys_zero : nbc_keys A (zero (R:=R)).
Proof. intros K. unfold zero. rewrite lookup_empty. by intros [? ?]. Qed.

Lemma nbc_keys_add x y : nbc_keys A x → nbc_keys A y → nbc_keys A (add x y).
Proof. intros Hx Hy K [?|?]%add_is_Some; eauto. Qed.

Lemma nbc_keys_scal c x : nbc_keys A x → nbc_keys A (scal c x).
Proof. intros Hx K ?%scal_is_Some. eauto. Qed.

Lemma subset_image_body_nbc rec S r :
  (∀ S' r', rec S' = Ok r' → nbc_keys A r') →
  subset_image_body A rec S = Ok r → nbc_keys A r.
Proof.
  intros Hrec. unfold subset_image_body.
  destruct (scan _ S) as [[bc i]|] eqn:Hscan.
  - case_decide.
    { intros [= <-]. apply nbc_keys_zero. }
    intros (lc & _ & (js & _ & Hloop)%bind_Ok)%bind_Ok.
    revert Hloop. apply for_loop_invariant; [apply nbc_keys_zero|].
    intros r0 ij r1 _ Hr0. unfold reduce_step.
    intros (coeff & _ & Hstep)%bind_Ok. case_decide.
    { by injection Hstep as <-. }
    apply bind_Ok in Hstep as (q & _ & (x & Hx & [= <-])%bind_Ok).
    apply nbc_keys_add; [done|]. apply nbc_keys_scal. eauto.
  - intros [= <-] K. unfold monomial.
    intros [c [<- _]%lookup_singleton_Some]. by apply is_nbc_scan.
Qed.

Lemma subset_image_fuel_nbc fuel S r :
  subset_image_fuel A fuel S = Ok r → nbc_keys A r.
Proof.
  revert S r. induction fuel as [|n IH]; intros S r; simpl; [done|].
  apply subset_image_body_nbc. eauto.
Qed.
End keys.

(** * The claims *)

(** C6: [subset_image(S)] terminates for every [S]: for an algebra built by
    the constructor, the run with the fuel [weight S + 1] is never cut, and
    every run with at least that much fuel gives the same outcome.  The
    recursive calls are at [(S ∪ {i}) ∖ {j}] with [i] of smaller rank
    than [j], so the sum of the ranks decreases. *)
Theorem subset_image_terminates {R : Type} `{!BaseRing R} `{!LinearAlgebra R}
    (M : Matroid) (ordering : list nat) (A : OrlikTeraoAlgebra) (S : gset nat) :
  __init__ M ordering = Ok A →
  ∃ o : outcome (gmap (gset nat) R),
    o ≠ OutOfFuel ∧
    ∀ fuel, weight A S < fuel → subset_image_fuel A fuel S = o.
Proof.
  intros [HA _]%init_well_built. exists (subset_image A S). split.
  - apply subset_image_fuel_not_OutOfFuel; [done | lia].
  - intros fuel Hfuel. apply subset_image_fuel_stable; [done | done | lia].
Qed.

Lemma subset_image_terminates_witness :
  __init__ M_wheel [0; 1; 2; 3; 4; 5] = Ok OT_wheel ∧
  ∃ o : outcome (gmap (gset nat) Q),
    o ≠ OutOfFuel ∧
    ∀ fuel, weight OT_wheel {[1; 4; 5]} < fuel →
            subset_image_fuel OT_wheel fuel {[1; 4; 5]} = o.
Proof.
  split; [reflexivity|].
  apply (subset_image_terminates M_wheel [0; 1; 2; 3; 4; 5]). reflexivity.
Defined.

(** C1: every index of the element that [subset_image(S)] returns is an NBC
    set: it contains no recorded broken circuit. *)
Theorem subset_image_nbc_closure {R : Type} `{!BaseRing R} `{!LinearAlgebra R}
    (A : OrlikTeraoAlgebra) (S : gset nat) (r : gmap (gset nat) R) (K : gset nat) :
  subset_image A S = Ok r →
  is_Some (r !! K) →
  ∀ bc i, (bc, i) ∈ _broken_circuits A → bc ⊈ K.
Proof.
  intros Hr HK bc i Hin.
  apply subset_image_fuel_nbc in Hr. specialize (Hr K HK).
  rewrite is_nbc_spec in Hr. apply Hr.
  apply list_elem_of_fmap. by exists (bc, i).
Qed.

Lemma subset_image_nbc_closure_witness :
  subset_image OT_wheel {[1; 4; 5]} =
    Ok ({[ {[0; 1; 4]} := (-1)%Q; {[0; 1; 5]} := (-1)%Q; {[0; 3; 4]} := (-1)%Q;
           {[0; 3; 5]} := (-1)%Q ]} : gmap (gset nat) Q) ∧
  ∀ bc i, (bc, i) ∈ _broken_circuits OT_wheel → bc ⊈ ({[0; 3; 5]} : gset nat).
Proof.
  split; [reflexivity|].
  apply (subset_image_nbc_closure OT_wheel {[1; 4; 5]}
           ({[ {[0; 1; 4]} := (-1)%Q; {[0; 1; 5]} := (-1)%Q; {[0; 3; 4]} := (-1)%Q;
               {[0; 3; 5]} := (-1)%Q ]} : gmap (gset nat) Q)).
  - reflexivity.
  - by exists (-1)%Q.
Defined.

(** ** The unit and the loops *)

Lemma difference_singleton_empty (c : gset nat) i :
  i ∈ c → ∅ = c ∖ {[i]} → c = {[i]}.
Proof.
  intros Hi He. apply set_eq. intros y. rewrite elem_of_singleton.
  split; [|by intros ->]. intros Hy.
  destruct (decide (y = i)) as [|Hne]; [done|].
  assert (y ∈ (∅ : gset nat)) as []%not_elem_of_empty.
  rewrite He. apply elem_of_difference. by rewrite elem_of_singleton.
Qed.

Section unit.
Context {R : Type} `{!BaseRing R} `{!LinearAlgebra R}.
Variable A : OrlikTeraoAlgebra.
Hypothesis HA : well_built A.


Lemma empty_key_loop i :
  (∅, i) ∈ _broken_circuits A → {[i]} ∈ circuits (_M A).
Proof.
  intros Hin. destruct (wb_entries A HA ∅ i Hin) as (c & Hc & Hi & Hbc & _).
  by rewrite <-(difference_singleton_empty c i Hi Hbc).
Qed.

Lemma loop_empty_key x :
  {[x]} ∈ circuits (_M A) → (∅ : gset nat) ∈ (_broken_circuits A).*1.
Proof.
  intros Hc. destruct (wb_keys A HA {[x]} Hc) as (i & (Hi & _) & Hkey).
  apply elem_of_singleton in Hi as ->.
  by rewrite difference_diag_L in Hkey.
Qed.

(** The rewriting of a set that meets the broken circuit [∅] first and
    does not hold its recorded element: an empty sum. *)
Lemma subset_image_at_empty_key S i :
  scan (_broken_circuits A) S = Some (∅, i) →
  is_independent (_M A) ∅ = true →
  subset_image A S = Ok zero.
Proof.
  intros Hscan Hind. rewrite subset_image_unfold by done.
  unfold subset_image_body. rewrite Hscan. case_decide; [done|].
  unfold _chi. rewrite decide_True, Hind, elements_empty by set_solver.
  simpl. by rewrite det_nil.
Qed.
End unit.

Lemma has_loop_spec M : has_loop M = true ↔ ∃ x, {[x]} ∈ circuits M.
Proof.
  unfold has_loop. rewrite existsb_exists. split.
  - intros (c & Hc%list_elem_of_In & Hsize%bool_decide_eq_true).
    apply size_1_elem_of in Hsize as [x Hx%leibniz_equiv]. exists x. by subst.
  - intros [x Hx]. exists {[x]}. split; [by apply list_elem_of_In|].
    apply bool_decide_eq_true. apply size_singleton.
Qed.

(** C3 (amended): for a matroid without loops, [subset_image] of the empty
    set is the one-term element [∅ ↦ 1]; for a matroid with a loop the
    empty set is a recorded broken circuit and [subset_image] of the empty
    set is the zero element. *)
Theorem subset_image_empty_set {R : Type} `{!BaseRing R} `{!LinearAlgebra R}
    (M : Matroid) (ordering : list nat) (A : OrlikTeraoAlgebra) :
  __init__ M ordering = Ok A →
  (has_loop M = false → subset_image A ∅ = Ok (monomial ∅)) ∧
  (has_loop M = true → is_independent M ∅ = true →
   ∅ ∈ (_broken_circuits A).*1 ∧ subset_image A ∅ = Ok zero).
Proof.
  intros (HA & HM & _)%init_well_built. subst M. split.
  - intros Hloops. rewrite subset_image_unfold by done. unfold subset_image_body.
    destruct (scan _ ∅) as [[bc i]|] eqn:Hscan; [|done].
    apply scan_Some in Hscan as [Hin Hsub].
    assert (bc = ∅) as -> by set_solver.
    apply empty_key_loop in Hin; [|done].
    assert (has_loop (_M A) = true) by (apply has_loop_spec; eauto). congruence.
  - intros [x Hx]%has_loop_spec Hind.
    pose proof (loop_empty_key A HA x Hx) as Hkey. split; [done|].
    destruct (scan_is_Some (_broken_circuits A) ∅ ∅) as [[bc i] Hscan]; [done..|].
    pose proof (scan_Some _ _ _ _ Hscan) as [_ Hsub].
    assert (bc = ∅) as -> by set_solver.
    by eapply subset_image_at_empty_key.
Qed.

Lemma subset_image_empty_set_witness :
  subset_image OT_wheel ∅ = Ok (monomial (R:=Q) ∅) ∧
  ∅ ∈ (_broken_circuits OT_loop).*1 ∧
  subset_image (LinearAlgebra0:=loop_representation) OT_loop ∅ = Ok (zero (R:=Q)).
Proof.
  split.
  - apply (subset_image_empty_set M_wheel [0; 1; 2; 3; 4; 5] OT_wheel); reflexivity.
  - apply (subset_image_empty_set (LinearAlgebra0:=loop_representation)
             M_loop [0; 1] OT_loop); reflexivity.
Defined.

(** C3, as stated, fails on a matroid with a loop: there [subset_image] of
    the empty set is the zero element, not the unit. *)
Lemma unit_law_fails_with_a_loop :
  __init__ M_loop [0; 1] = Ok OT_loop ∧
  subset_image (LinearAlgebra0:=loop_representation) OT_loop ∅ = Ok (zero (R:=Q)) ∧
  subset_image (LinearAlgebra0:=loop_representation) OT_loop ∅ ≠ Ok (monomial (R:=Q) ∅).
Proof.
  split; [reflexivity|]. split; [reflexivity|].
  intros Heq.
  apply (f_equal (λ o, match o with Ok r => r !! (∅ : gset nat) | _ => None end)) in Heq.
  vm_compute in Heq. discriminate.
Qed.

(** ** Matroids *)

Lemma matroid_of_circuits_axioms E cs :
  check_circuit_axioms cs = true → matroid_axioms (matroid_of_circuits E cs).
Proof.
  unfold check_circuit_axioms. rewrite forallb_forall. intros Hcheck.
  assert (∀ c1 c2, c1 ∈ cs → c2 ∈ cs → c1 ≠ c2 →
            c1 ⊈ c2 ∧ ∀ e, e ∈ c1 → e ∈ c2 →
              ∃ c3, c3 ∈ cs ∧ c3 ⊆ (c1 ∪ c2) ∖ {[e]}) as Hpair.
  { intros c1 c2 H1%list_elem_of_In H2%list_elem_of_In Hne.
    specialize (Hcheck c1 H1). rewrite forallb_forall in Hcheck.
    specialize (Hcheck c2 H2).
    apply orb_true_iff in Hcheck as [Heq%bool_decide_eq_true|Hcheck]; [done|].
    apply andb_true_iff in Hcheck as [Hsub%negb_true_iff%bool_decide_eq_false Hel].
    split; [done|]. intros e He1 He2. rewrite forallb_forall in Hel.
    specialize (Hel e). rewrite <-list_elem_of_In, elem_of_elements in Hel.
    apply Hel in He1. apply orb_true_iff in He1 as [Hn|Hex].
    - by apply negb_true_iff, bool_decide_eq_false in Hn.
    - apply existsb_exists in Hex as (c3 & H3%list_elem_of_In & Hc3%bool_decide_eq_true).
      eauto. }
  split; simpl.
  - intros c1 c2 H1 H2 Hsub. destruct (decide (c1 = c2)) as [|Hne]; [done|].
    by destruct (Hpair c1 c2 H1 H2 Hne).
  - intros c1 c2 e H1 H2 Hne. by apply Hpair.
  - intros X. unfold contains_circuit. rewrite negb_true_iff.
    rewrite <-not_true_iff_false, existsb_exists. split.
    + intros Hno c Hc Hsub. apply Hno. exists c.
      split; [by apply list_elem_of_In | by apply bool_decide_eq_true].
    + intros Hno (c & Hc%list_elem_of_In & Hsub%bool_decide_eq_true). by eapply Hno.
Qed.

Section matroid.
Context {R : Type} `{!BaseRing R} `{!LinearAlgebra R}.
Variable A : OrlikTeraoAlgebra.
Hypothesis HA : well_built A.
Hypothesis HM : matroid_axioms (_M A).

(** A proper subset of a circuit is independent and its elements are
    ranked: the assertion of [_chi] and its look-ups of ranks pass. *)
Lemma proper_subset_independent c X x :
  c ∈ circuits (_M A) → X ⊆ c → x ∈ c → x ∉ X →
  is_independent (_M A) X = true ∧ X ⊆ dom (_sorting A).
Proof.
  intros Hc Hsub Hx HxX. split.
  - apply (independent_spec _ HM). intros c' Hc' Hsub'.
    assert (c' = c) as -> by (apply (circuits_antichain _ HM); set_solver).
    set_solver.
  - intros y Hy. destruct (wb_keys A HA c Hc) as (i & Hb & _).
    apply elem_of_dom. eapply broken_keys; [exact Hb | set_solver].
Qed.

(** On a proper subset of a circuit of the ground set, [_chi] is the
    conversion of a determinant, and returns when [_chi] is defined. *)
Lemma chi_proper_subset_call c X x :
  c ⊆ groundset (_M A) →
  c ∈ circuits (_M A) → X ⊆ c → x ∈ c → x ∉ X →
  ∃ rows, _chi A X = call (det rows).
Proof.
  intros Hground Hc Hsub Hx HxX.
  destruct (proper_subset_independent c X x) as [Hind Hkeys]; [done..|].
  apply chi_call; [set_solver | done |].
  intros y Hy. by apply elem_of_dom, Hkeys.
Qed.

Lemma chi_proper_subset c X x :
  c ⊆ groundset (_M A) → chi_defined A →
  c ∈ circuits (_M A) → X ⊆ c → x ∈ c → x ∉ X → ∃ v, _chi A X = Ok v.
Proof.
  intros Hground Hchi Hc Hsub Hx HxX.
  destruct (proper_subset_independent c X x) as [Hind Hkeys]; [done..|].
  apply Hchi; [set_solver | done | done].
Qed.


End matroid.



(** C5: the product of two basis elements: the other factor when one index
    is empty, zero when the indices are non-empty and meet, and
    [subset_image] of the union when they are disjoint. *)
Theorem product_on_basis_cases {R : Type} `{!BaseRing R} `{!LinearAlgebra R}
    (A : OrlikTeraoAlgebra) (a b : gset nat) :
  is_nbc A a = true →
  is_nbc A b = true →
  (a = ∅ → product_on_basis A a b = Ok (monomial (R:=R) b)) ∧
  (b = ∅ → product_on_basis A a b = Ok (monomial (R:=R) a)) ∧
  (a ≠ ∅ → b ≠ ∅ → a ∩ b ≠ ∅ → product_on_basis A a b = Ok (zero (R:=R))) ∧
  (a ## b → product_on_basis A a b = subset_image (R:=R) A (a ∪ b)).
Proof.
  intros Ha%is_nbc_scan Hb%is_nbc_scan.
  assert (∀ S, scan (_broken_circuits A) S = None →
               subset_image (R:=R) A S = Ok (monomial S)) as Hnbc.
  { intros S HS. unfold subset_image. simpl. unfold subset_image_body. by rewrite HS. }
  unfold product_on_basis, basis_getitem. repeat split.
  - intros ->. by rewrite decide_True.
  - intros ->. case_decide; [by subst|]. by rewrite decide_True.
  - intros Hane Hbne Hmeet. rewrite !decide_False by done.
    rewrite bool_decide_eq_false_2; [done|].
    intros Hdisj. apply Hmeet. by apply disjoint_intersection_L.
  - intros Hdisj. case_decide as Hae.
    { subst. by rewrite (left_id_L ∅ (∪)), Hnbc. }
    case_decide as Hbe.
    { subst. by rewrite (right_id_L ∅ (∪)), Hnbc. }
    rewrite bool_decide_eq_true_2 by done. simpl. by rewrite (comm_L (∪) b a).
Qed.

Lemma product_on_basis_cases_witness :
  (({[2]} : gset nat) = ∅ →
   product_on_basis OT_wheel {[2]} {[3; 4]} = Ok (monomial (R:=Q) {[3; 4]})) ∧
  (({[3; 4]} : gset nat) = ∅ →
   product_on_basis OT_wheel {[2]} {[3; 4]} = Ok (monomial (R:=Q) {[2]})) ∧
  (({[2]} : gset nat) ≠ ∅ → ({[3; 4]} : gset nat) ≠ ∅ →
   ({[2]} : gset nat) ∩ {[3; 4]} ≠ ∅ →
   product_on_basis OT_wheel {[2]} {[3; 4]} = Ok (zero (R:=Q))) ∧
  (({[2]} : gset nat) ## {[3; 4]} →
   product_on_basis OT_wheel {[2]} {[3; 4]} =
   subset_image (R:=Q) OT_wheel ({[2]} ∪ {[3; 4]})).
Proof.
  apply (product_on_basis_cases OT_wheel {[2]} {[3; 4]}); reflexivity.
Defined.

(** C9: [product_on_basis] is commutative. *)
Theorem product_on_basis_comm {R : Type} `{!BaseRing R} `{!LinearAlgebra R}
    (A : OrlikTeraoAlgebra) (a b : gset nat) :
  product_on_basis (R:=R) A a b = product_on_basis A b a.
Proof.
  unfold product_on_basis.
  destruct (decide (a = ∅)) as [->|Ha], (decide (b = ∅)) as [->|Hb]; try done.
  rewrite (bool_decide_ext (a ## b) (b ## a)) by (split; by symmetry).
  by rewrite (comm_L (∪) b a).
Qed.

(** ** The zero law *)

Lemma sublists_filter {A} (P : A → Prop) `{∀ x, Decision (P x)} (l : list A) :
  filter P l ∈ sublists l.
Proof.
  induction l as [|x l IH]; simpl; [by left|].
  rewrite filter_cons. apply elem_of_app. case_decide.
  - right. apply list_elem_of_fmap. by exists (filter P l).
  - by left.
Qed.

Lemma elem_of_subsets (E X : gset nat) : X ⊆ E → X ∈ subsets E.
Proof.
  intros Hsub. unfold subsets. apply list_elem_of_fmap.
  exists (filter (.∈ X) (elements E)). split; [|apply sublists_filter].
  apply set_eq. intros x.
  rewrite elem_of_list_to_set, list_elem_of_filter, elem_of_elements.
  split; [|by intros [? _]]. intros Hx. split; [done | by apply Hsub].
Qed.

Lemma chi_Ok_keys {R : Type} `{!BaseRing R} `{!LinearAlgebra R} A (X : gset nat) (v : R) :
  _chi A X = Ok v → X ⊆ dom (_sorting A).
Proof.
  unfold _chi. case_decide; [|done]. destruct (is_independent _ X); [|done].
  intros (Xs & (_ & _ & Hkeys)%sorted_Ok & _)%bind_Ok x Hx.
  destruct (Hkeys x) as [k Hk%getitem_Ok]; [by apply elem_of_elements|].
  apply elem_of_dom. by eexists.
Qed.

(** For a ring in which every division by a nonzero element converts, the
    divisions are exact as soon as [_chi] has no zero value, which is
    checked on the subsets of the elements that the ordering lists. *)
Lemma divisions_exact_check {R : Type} `{!BaseRing R} `{!LinearAlgebra R} A :
  (∀ a b : R, b ≠ rzero → ∃ q, rdiv a b = inr q) →
  forallb (λ X, match _chi A X with
                | Ok v => negb (bool_decide (v = rzero))
                | _ => true
                end) (subsets (dom (_sorting A))) = true →
  divisions_exact (R:=R) A.
Proof.
  intros Hfield Hcheck X Y lc coeff HX _ _. apply Hfield.
  rewrite forallb_forall in Hcheck. specialize (Hcheck X).
  rewrite HX in Hcheck. intros ->.
  rewrite bool_decide_eq_true_2 in Hcheck by done.
  discriminate Hcheck.
  by apply list_elem_of_In, elem_of_subsets, (chi_Ok_keys A X rzero).
Qed.

Lemma Q_ring_field (a b : Q) : b ≠ rzero → ∃ q, rdiv a b = inr q.
Proof. intros Hb. simpl. rewrite decide_False by done. by eexists. Qed.

Lemma chi_defined_total {R : Type} `{!BaseRing R} `{!LinearAlgebra R} A :
  (∀ rows : list Vec, ∃ d : R, det rows = inr d) → chi_defined (R:=R) A.
Proof.
  intros Hdet X Hsub Hind Hkeys.
  destruct (chi_call A X) as [rows ->]; [done | done | |].
  { intros x Hx. by apply elem_of_dom, Hkeys. }
  destruct (Hdet rows) as [d ->]. by eexists.
Qed.

Lemma circuits_in_groundset (M : Matroid) :
  forallb (λ c : gset nat, bool_decide (c ⊆ groundset M)) (circuits M) = true →
  ∀ c, c ∈ circuits M → c ⊆ groundset M.
Proof.
  rewrite forallb_forall. intros Hcs c Hc.
  by apply list_elem_of_In, Hcs, bool_decide_eq_true in Hc.
Qed.

(** A set that contains a circuit is rewritten to sets that contain a
    circuit: by circuit elimination when the circuit holds the element
    that the step removes. *)
Lemma rewrite_keeps_circuit (A : OrlikTeraoAlgebra) (S c bc : gset nat) (i j : nat) :
  well_built A → matroid_axioms (_M A) →
  scan (_broken_circuits A) S = Some (bc, i) → i ∉ S → j ∈ bc →
  c ∈ circuits (_M A) → c ⊆ S →
  ∃ c', c' ∈ circuits (_M A) ∧ c' ⊆ (S ∪ {[i]}) ∖ {[j]}.
Proof.
  intros HA HM [Hin Hbc]%scan_Some Hi Hj Hc Hsub.
  destruct (wb_entries A HA bc i Hin) as (c0 & Hc0 & Hi0 & Heq & _).
  destruct (decide (j ∈ c)) as [Hjc|Hjc]; [|exists c; set_solver].
  destruct (circuit_elimination _ HM c0 c j) as (c3 & Hc3 & Hsub3);
    [done | done | set_solver | set_solver | done |].
  exists c3. split; [done|].
  intros y [Hy Hyj]%Hsub3%elem_of_difference.
  apply elem_of_difference. split; [|done].
  apply elem_of_union in Hy as [Hy|Hy]; [|apply elem_of_union_l; by apply Hsub].
  destruct (decide (y = i)) as [->|Hyi]; [apply elem_of_union_r; by apply elem_of_singleton|].
  apply elem_of_union_l, Hbc. rewrite Heq.
  apply elem_of_difference. by rewrite elem_of_singleton.
Qed.

(** For a matroid whose circuits lie in the ground set, with [_chi]
    defined and exact divisions, [subset_image] returns: [_chi] is only
    called on proper subsets of circuits, which are independent, so its
    assertion never fails. *)
Lemma subset_image_returns {R : Type} `{!BaseRing R} `{!LinearAlgebra R}
    (M : Matroid) (ordering : list nat) (A : OrlikTeraoAlgebra) (S : gset nat) :
  __init__ M ordering = Ok A →
  matroid_axioms M →
  (∀ c, c ∈ circuits M → c ⊆ groundset M) →
  chi_defined (R:=R) A →
  divisions_exact (R:=R) A →
  ∃ r : gmap (gset nat) R, subset_image A S = Ok r.
Proof.
  intros (HA & <- & _)%init_well_built HM Hground Hchi Hdiv.
  induction S as [S IH] using (subset_image_ind A HA).
  rewrite subset_image_unfold by done. unfold subset_image_body.
  destruct (scan _ S) as [[bc i]|] eqn:Hscan; [|by eexists].
  case_decide as Hi; [by eexists|].
  pose proof (scan_Some _ _ _ _ Hscan) as [Hin Hbc].
  destruct (wb_entries A HA bc i Hin) as (c0 & Hc0 & Hb).
  pose proof Hb as (Hi0 & Heq & _).
  destruct (chi_proper_subset A HA HM c0 bc i) as [lc Hlc];
    [exact (Hground c0 Hc0) | done | done | set_solver..|].
  rewrite Hlc. simpl.
  destruct (sorted_total (getitem (_sorting A)) (elements bc)) as [js Hjs].
  { intros y Hy%elem_of_elements.
    destruct (broken_keys A c0 bc i y Hb) as [k Hk]; [set_solver|].
    exists k. by apply getitem_Ok. }
  rewrite Hjs. simpl. apply sorted_Ok in Hjs as (Hperm & _).
  apply for_loop_total. intros r [ind j] Hj%elem_of_enumerate_2. simpl in Hj.
  rewrite Hperm, elem_of_elements in Hj.
  unfold reduce_step. simpl.
  destruct (chi_proper_subset A HA HM c0 ((bc ∪ {[i]}) ∖ {[j]}) j)
    as [coeff Hcoeff]; [exact (Hground c0 Hc0) | done | done | set_solver..|].
  rewrite Hcoeff. simpl. case_decide as Hz; [by eexists|].
  destruct (Hdiv _ _ _ _ Hlc Hcoeff Hz) as [q ->]. simpl.
  destruct (IH bc i j eq_refl Hi Hj) as [x ->]. by eexists.
Qed.

(** C2 (amended): for every [S] that contains a circuit, whichever broken
    circuit the scan meets first, [subset_image(S)] is the zero element
    whenever it returns; it returns when the circuits lie in the ground
    set, [_chi] is defined on the independent sets and the quotients of
    its values convert into the base ring. *)
Theorem subset_image_zero_law {R : Type} `{!BaseRing R} `{!LinearAlgebra R}
    (M : Matroid) (ordering : list nat) (A : OrlikTeraoAlgebra)
    (S c : gset nat) :
  __init__ M ordering = Ok A →
  matroid_axioms M →
  c ∈ circuits M → c ⊆ S →
  (∀ r : gmap (gset nat) R, subset_image A S = Ok r → r = zero) ∧
  (forallb (λ c' : gset nat, bool_decide (c' ⊆ groundset M)) (circuits M) = true →
   chi_defined (R:=R) A →
   divisions_exact (R:=R) A →
   subset_image A S = Ok (zero (R:=R))).
Proof.
  intros Hinit HM Hc Hsub.
  pose proof (init_well_built _ _ _ Hinit) as (HA & HMA & _).
  assert (∀ r : gmap (gset nat) R, subset_image A S = Ok r → r = zero) as Hzero.
  { rewrite <-HMA in HM, Hc. clear Hinit HMA. revert c Hc Hsub.
    induction S as [S IH] using (subset_image_ind A HA). intros c Hc Hsub r.
    rewrite subset_image_unfold by done. unfold subset_image_body.
    destruct (scan _ S) as [[bc i]|] eqn:Hscan.
    - case_decide as Hi; [by intros [= <-]|].
      intros (lc & _ & (js & (Hperm & _)%sorted_Ok & Hloop)%bind_Ok)%bind_Ok.
      revert Hloop. apply (for_loop_invariant (λ r, r = zero)); [done|].
      intros r0 [ind j] r1 Hj%elem_of_enumerate_2 ->. simpl in Hj.
      rewrite Hperm, elem_of_elements in Hj. unfold reduce_step. simpl.
      intros (coeff & _ & Hstep)%bind_Ok. case_decide.
      { by injection Hstep as <-. }
      apply bind_Ok in Hstep as (q & _ & (x & Hx & [= <-])%bind_Ok).
      destruct (rewrite_keeps_circuit A S c bc i j) as (c' & Hc' & Hsub');
        [done..|].
      rewrite (IH bc i j eq_refl Hi Hj c' Hc' Hsub' x Hx).
      by rewrite scal_zero, add_zero_l.
    - destruct (wb_keys A HA c Hc) as (i & _ & Hkey).
      destruct (scan_is_Some (_broken_circuits A) S (c ∖ {[i]})) as [? ?];
        [done | set_solver | congruence]. }
  split; [done|]. intros Hground Hchi Hdiv.
  pose proof (circuits_in_groundset M Hground) as Hg.
  destruct (subset_image_returns M ordering A S) as [r Hr]; [done..|].
  by rewrite Hr, (Hzero r Hr).
Qed.

Lemma subset_image_zero_law_witness :
  scan (_broken_circuits OT_wheel) {[1; 2; 3; 4]} = Some ({[1; 3]}, 0) ∧
  (∀ r : gmap (gset nat) Q, subset_image OT_wheel {[1; 2; 3; 4]} = Ok r → r = zero) ∧
  subset_image OT_wheel {[1; 2; 3; 4]} = Ok (zero (R:=Q)).
Proof.
  split; [reflexivity|].
  destruct (subset_image_zero_law (R:=Q) M_wheel [0; 1; 2; 3; 4; 5] OT_wheel
              {[1; 2; 3; 4]} {[1; 2; 4]}) as [Hzero Hreturns].
  - reflexivity.
  - apply matroid_of_circuits_axioms. reflexivity.
  - right; left.
  - compute_done.
  - split; [exact Hzero|]. apply Hreturns.
    + reflexivity.
    + apply chi_defined_total. intros rows. by eexists.
    + apply divisions_exact_check; [apply Q_ring_field | vm_compute; reflexivity].
Defined.

(** C2, as stated, fails over the integers: the three columns of
    [(1 2 3)] form a matroid in which [{1, 2}] is a circuit, and
    [subset_image({1, 2})] raises [TypeError] at the conversion of the
    quotient [1 / 2], whichever broken circuit the scan meets first (both
    are recorded with the element [0]). *)
Lemma zero_law_fails_over_integers :
  __init__ M_triple [0; 1; 2] = Ok OT_triple ∧
  check_circuit_axioms (circuits M_triple) = true ∧
  _broken_circuits OT_triple = [({[1]}, 0); ({[2]}, 0)] ∧
  ({[1; 2]} : gset nat) ∈ circuits M_triple ∧
  ({[1; 2]} : gset nat) ⊆ groundset M_triple ∧
  subset_image (LinearAlgebra0:=parallel_representation) OT_triple {[1; 2]} =
    Raise TypeError ∧
  subset_image (LinearAlgebra0:=parallel_representation) OT_triple {[1; 2]} ≠
    Ok zero.
Proof.
  split; [reflexivity|]. split; [reflexivity|]. split; [reflexivity|].
  split; [right; left|]. split; [compute_done|]. split; [reflexivity|].
  discriminate.
Qed.

(** ** The rewriting sum *)

Section rewrite.
Context {R : Type} `{!BaseRing R} `{!LinearAlgebra R}.
Variable A : OrlikTeraoAlgebra.

Lemma reduce_step_term S bc i lc r ij :
  reduce_step A (subset_image A) (S ∪ {[i]}) (bc ∪ {[i]}) lc r ij =
  t ← rewrite_term A S bc i lc ij; mret (from_option (add r) r t).
Proof.
  unfold reduce_step, rewrite_term.
  destruct (_chi A ((bc ∪ {[i]}) ∖ {[ij.2]})) as [coeff| |]; simpl; [|done..].
  case_decide; simpl; [done|].
  destruct (call (rdiv coeff lc)) as [q| |]; simpl; [|done..].
  by destruct (subset_image A ((S ∪ {[i]}) ∖ {[ij.2]})) as [x| |].
Qed.

Lemma for_loop_sum S bc i lc r l :
  for_loop (reduce_step A (subset_image A) (S ∪ {[i]}) (bc ∪ {[i]}) lc) r l =
  ts ← mapM (rewrite_term A S bc i lc) l; mret (foldl add r (omap id ts)).
Proof.
  revert r. induction l as [|ij l IH]; intros r; [done|].
  rewrite for_loop_cons, mapM_cons, reduce_step_term.
  destruct (rewrite_term A S bc i lc ij) as [[y|]| |]; simpl; [| |done..].
  - rewrite IH. by destruct (mapM _ l).
  - rewrite IH. by destruct (mapM _ l).
Qed.
End rewrite.

(** C4: when the scan of [subset_image(S)] finds the broken circuit [bc]
    and its recorded element [i] is not in [S], the result is the sum over
    the elements [j] of [bc], in ascending order and numbered from 0, of
    [(-1)^ind * (chi((bc ∪ {i}) ∖ {j}) / chi(bc)) * subset_image((S ∪ {i}) ∖ {j})],
    without the terms whose [chi((bc ∪ {i}) ∖ {j})] is zero. *)
Theorem subset_image_rewrite {R : Type} `{!BaseRing R} `{!LinearAlgebra R}
    (M : Matroid) (ordering : list nat) (A : OrlikTeraoAlgebra)
    (S bc : gset nat) (i : nat) :
  __init__ M ordering = Ok A →
  scan (_broken_circuits A) S = Some (bc, i) →
  i ∉ S →
  subset_image (R:=R) A S = rewrite_sum A S bc i.
Proof.
  intros [HA _]%init_well_built Hscan Hi.
  rewrite subset_image_unfold by done. unfold subset_image_body, rewrite_sum.
  rewrite Hscan, decide_False by done.
  destruct (_chi A bc) as [lc| |]; simpl; [|done..].
  destruct (sorted _ _) as [js| |]; simpl; [|done..].
  apply for_loop_sum.
Qed.

Lemma subset_image_rewrite_witness :
  subset_image (R:=Q) OT_wheel {[1; 4; 5]} = rewrite_sum OT_wheel {[1; 4; 5]} {[4; 5]} 3.
Proof.
  apply (subset_image_rewrite M_wheel [0; 1; 2; 3; 4; 5]).
  - reflexivity.
  - reflexivity.
  - compute_done.
Defined.

(** ** Failure of the constructor *)

Lemma mapM_Raise {A B} (f : A → outcome B) (l : list A) e :
  mapM f l = Raise e → ∃ x, x ∈ l ∧ f x = Raise e.
Proof.
  induction l as [|x l IH]; [done|]. rewrite mapM_cons.
  destruct (f x) as [y|e'|] eqn:Hx; simpl; [|intros [= ->]; exists x; by split; [left|] | done].
  destruct (mapM f l) as [k|e'|]; simpl; [done| |done].
  intros [= ->]. destruct IH as (x' & ? & ?); [done|]. exists x'. by split; [right|].
Qed.

Lemma sorted_Raise key l e :
  sorted key l = Raise e → ∃ x, x ∈ l ∧ key x = Raise e.
Proof.
  unfold sorted. destruct (mapM _ l) as [k|e'|] eqn:Hk; simpl; [done| |done].
  intros [= ->]. apply mapM_Raise in Hk as (x & Hx & Hkx). exists x. split; [done|].
  destruct (key x); [discriminate Hkx | by injection Hkx as -> | discriminate Hkx].
Qed.

Lemma build_broken_circuits_not_OutOfFuel sorting cs (d : dict) :
  build_broken_circuits sorting cs d ≠ OutOfFuel.
Proof.
  revert d. induction cs as [|c cs IH]; intros d; simpl; [done|].
  apply bind_not_OutOfFuel; [apply sorted_not_OutOfFuel, getitem_not_OutOfFuel|].
  intros [|m rest] _; [done | apply IH].
Qed.

Lemma build_broken_circuits_Raise sorting cs (d : dict) e :
  build_broken_circuits sorting cs d = Raise e →
  (e = IndexError ∧ (∅ : gset nat) ∈ cs) ∨
  (e = KeyError ∧ ∃ c x, c ∈ cs ∧ x ∈ c ∧ sorting !! x = None).
Proof.
  revert d. induction cs as [|c cs IH]; intros d; simpl; [done|].
  destruct (sorted _ (elements c)) as [[|m rest]|e'|] eqn:HL; simpl.
  - intros [= <-]. left. split; [done|].
    apply sorted_Ok in HL as (Hperm & _). symmetry in Hperm.
    apply Permutation_nil_r, elements_empty_inv, leibniz_equiv in Hperm.
    subst. by left.
  - intros [(-> & ?)|(-> & c' & x & ? & ?)]%IH; [left | right].
    + split; [done | by right].
    + split; [done|]. exists c', x. split; [by right | done].
  - intros [= ->]. apply sorted_Raise in HL as (x & Hx%elem_of_elements & Hkey).
    unfold getitem in Hkey. destruct (sorting !! x) eqn:Hsx; [done|].
    injection Hkey as <-. right. split; [done|]. exists c, x. split; [by left | done].
  - done.
Qed.

(** C7 (amended): the constructor makes no check that the ordering is a
    permutation of the ground set.  It raises exactly when some circuit is
    empty or has an element that the ordering does not list, or when the
    enumeration of the NBC sets by the matroid raises; the exception is
    then [IndexError], [KeyError], or the one of the matroid, and no
    algebra is built. *)
Theorem classcall_raises_iff (M : Matroid) (ordering : list nat) :
  ((∃ e, __classcall_private__ M (Some ordering) = Raise e) ↔
   (∃ c, c ∈ circuits M ∧ (c = ∅ ∨ ∃ x, x ∈ c ∧ x ∉ ordering)) ∨
   (∃ e, no_broken_circuits_sets M ordering = inl e)) ∧
  (∀ e, __classcall_private__ M (Some ordering) = Raise e →
        e = IndexError ∨ e = KeyError ∨ no_broken_circuits_sets M ordering = inl e) ∧
  ((∃ A, __classcall_private__ M (Some ordering) = Ok A) ∨
   (∃ e, __classcall_private__ M (Some ordering) = Raise e)).
Proof.
  assert (∀ x, make_sorting ordering !! x = None ↔ x ∉ ordering) as Hnone.
  { intros x. rewrite <-make_sorting_is_Some, eq_None_not_Some. done. }
  pose proof (build_broken_circuits_not_OutOfFuel
                (make_sorting ordering) (circuits M) []) as Hfuel.
  pose proof (build_broken_circuits_Raise
                (make_sorting ordering) (circuits M) []) as Hraise.
  pose proof (build_broken_circuits_Ok_iff
                (make_sorting ordering) (circuits M) []) as Hok.
  unfold __classcall_private__, __init__.
  destruct (build_broken_circuits _ _ _) as [bcs|e|]; simpl; [| |done].
  - destruct Hok as [Hok _]. specialize (Hok ltac:(by eexists)).
    destruct (no_broken_circuits_sets M ordering) as [e|idx]; simpl.
    + split; [|split].
      * split; [intros _; right; by eexists | intros _; by eexists].
      * intros ? [= <-]. by right; right.
      * right. by eexists.
    + split; [|split].
      * split; [by intros [? ?]|].
        intros [(c & Hc & Hbad)|[? ?]]; [|done].
        destruct (Hok c Hc) as [Hne Hkeys].
        destruct Hbad as [->|(x & Hx & Hnot)]; [done|].
        apply Hnone in Hnot. destruct (Hkeys x Hx) as [? ?]. congruence.
      * done.
      * left. by eexists.
  - split; [|split].
    + split; [|intros _; by eexists]. intros _. left.
      destruct (Hraise e eq_refl) as [(_ & Hin)|(_ & c & x & Hc & Hx & Hsx)].
      * exists ∅. split; [done | by left].
      * exists c. split; [done|]. right. exists x. split; [done | by apply Hnone].
    + intros ? [= <-]. destruct (Hraise e eq_refl) as [(-> & _)|(-> & _)]; eauto.
    + right. by eexists.
Qed.

(** C7, as stated, fails: an ordering that repeats an element is not a
    permutation of the ground set (although it lists exactly its elements),
    and the constructor accepts it. *)
Lemma ordering_with_repeat_accepted :
  ¬ [0; 0; 1; 2; 3; 4; 5] ≡ₚ elements (groundset M_wheel) ∧
  list_to_set [0; 0; 1; 2; 3; 4; 5] = groundset M_wheel ∧
  ∃ A, __classcall_private__ M_wheel (Some [0; 0; 1; 2; 3; 4; 5]) = Ok A.
Proof.
  split; [|split].
  - intros Hperm%Permutation_length. vm_compute in Hperm. discriminate.
  - reflexivity.
  - eexists. reflexivity.
Qed.

(** ** Memoisation and the dynamic check of the argument *)

Section Memo.
Context {R : Type} `{!BaseRing R} `{!LinearAlgebra R}.
Variable A : OrlikTeraoAlgebra.

Lemma computes_lift {X} (o : outcome X) : computes A (lift o) o.
Proof. intros c Hc. by exists c. Qed.

Lemma computes_ret {X} (x : X) : computes A (mret x) (Ok x).
Proof. intros c Hc. by exists c. Qed.

Lemma computes_bind {X Y} (m : memoM X) (f : X → memoM Y) o (g : X → outcome Y) :
  computes A m o → (∀ x, o = Ok x → computes A (f x) (g x)) →
  computes A (m ≫= f) (o ≫= g).
Proof.
  intros Hm Hf c Hc. destruct (Hm c Hc) as (c1 & Hc1 & Hs1 & Hsub1).
  unfold mbind at 1, memoM_bind. rewrite Hc1.
  destruct o as [x|e|]; simpl; [|by exists c1..].
  destruct (Hf x eq_refl c1 Hs1) as (c2 & Hc2 & Hs2 & Hsub2).
  exists c2. split; [done|]. split; [done | by etrans].
Qed.

Lemma for_loop_memo_computes {St It : Type}
    (body_m : St → It → memoM St) (body : St → It → outcome St) r l :
  (∀ r x, x ∈ l → computes A (body_m r x) (body r x)) →
  computes A (for_loop_memo body_m r l) (for_loop body r l).
Proof.
  revert r. induction l as [|x l IH]; intros r Hb; simpl.
  - apply computes_ret.
  - apply computes_bind; [apply Hb; by left|].
    intros r' _. apply IH. intros; apply Hb; by right.
Qed.

Lemma subset_image_body_memo_computes rec_m rec S :
  (∀ bc i j, scan (_broken_circuits A) S = Some (bc, i) → i ∉ S → j ∈ bc →
             computes A (rec_m ((S ∪ {[i]}) ∖ {[j]})) (rec ((S ∪ {[i]}) ∖ {[j]}))) →
  computes A (subset_image_body_memo A rec_m S) (subset_image_body A rec S).
Proof.
  intros Hrec. unfold subset_image_body_memo, subset_image_body.
  destruct (scan _ S) as [[bc i]|] eqn:Hscan; [|apply computes_ret].
  case_decide as Hi; [apply computes_ret|].
  apply computes_bind; [apply computes_lift|]. intros lc _.
  apply computes_bind; [apply computes_lift|]. intros js (Hperm & _)%sorted_Ok.
  apply for_loop_memo_computes. intros r [ind j] Hj%elem_of_enumerate_2.
  simpl in Hj. rewrite Hperm, elem_of_elements in Hj.
  unfold reduce_step_memo, reduce_step. simpl.
  apply computes_bind; [apply computes_lift|]. intros coeff _.
  case_decide; [apply computes_ret|].
  apply computes_bind; [apply computes_lift|]. intros q _.
  apply computes_bind; [by eapply Hrec|]. intros x _. apply computes_ret.
Qed.

Hypothesis HA : well_built A.

(** Memoisation is transparent: with enough fuel, the memoised method
    computes [subset_image] from any sound table, and only adds to it. *)
Lemma subset_image_memo_computes fuel S :
  weight A S < fuel → computes A (subset_image_memo A fuel S) (subset_image A S).
Proof.
  revert S. induction fuel as [|n IH]; intros S Hfuel; [lia|]. simpl.
  assert (computes A (subset_image_body_memo A (subset_image_memo A n) S)
                   (subset_image A S)) as Hbody.
  { rewrite (subset_image_unfold A HA S).
    apply subset_image_body_memo_computes. intros bc i j Hscan Hi Hj.
    pose proof (recursive_call_weight A HA S bc i j Hscan Hi Hj).
    apply IH. lia. }
  intros c Hc. unfold cached. destruct (c !! S) as [r|] eqn:HcS.
  { exists c. split; [|done]. f_equal. symmetry. by apply Hc. }
  destruct (Hbody c Hc) as (c' & -> & Hs' & Hsub).
  destruct (subset_image A S) as [r|e|] eqn:Hr; [|by exists c'..].
  exists (<[S := r]> c'). split; [done|]. split.
  - intros S' r'. destruct (decide (S = S')) as [<-|Hne].
    + rewrite lookup_insert_eq. by intros [= <-].
    + rewrite lookup_insert_ne by done. apply Hs'.
  - by apply insert_subseteq_r.
Qed.
End Memo.

(** C8: for an argument that is not a [frozenset], [subset_image] raises
    ([ValueError] from the body, [TypeError] for an argument that cannot
    be a memo key) and the memo table is left as it was. *)
Theorem subset_image_invalid_input {R : Type} `{!BaseRing R} `{!LinearAlgebra R}
    (A : OrlikTeraoAlgebra) (arg : PyObject) (fuel : nat)
    (c : gmap (gset nat) (gmap (gset nat) R)) :
  (∀ S, arg ≠ PyFrozenset S) →
  ∃ e, (e = ValueError ∨ e = TypeError) ∧
       cached_subset_image A fuel arg c = (Raise e, c).
Proof.
  intros Harg. unfold cached_subset_image, lift.
  destruct arg as [S| | | | |]; simpl; eauto.
  by destruct (Harg S).
Qed.

Lemma subset_image_invalid_input_witness :
  ∃ e, (e = ValueError ∨ e = TypeError) ∧
       cached_subset_image (R:=Q) OT_wheel 7 (PyTuple [1; 3; 4]) ∅ = (Raise e, ∅).
Proof.
  apply (subset_image_invalid_input OT_wheel (PyTuple [1; 3; 4]) 7 ∅). done.
Defined.

(** * The tests of the docstrings *)

(** The circuits given for [matroids.Wheel(3)] are the minimal dependent
    sets of columns of its matrix, and independence by circuits is
    independence of columns. *)
Example wheel_circuits :
  list_to_set (column_circuits 3 wheel3_columns) =@{gset (gset nat)}
  list_to_set (circuits M_wheel).
Proof. compute_done. Qed.

Example wheel_independent :
  forallb (λ X, bool_decide (column_independent 3 wheel3_columns X =
                             is_independent M_wheel X))
          (subsets (groundset M_wheel)) = true.
Proof. vm_compute. reflexivity. Qed.

Example loop_circuits :
  column_circuits 1 loop_columns = circuits M_loop.
Proof. compute_done. Qed.

(** [OT.dimension()] is 24. *)
Example wheel_dimension : length (_indices OT_wheel) = 24.
Proof. vm_compute. reflexivity. Qed.

(** [sorted(map(sorted, M.broken_circuits()))] *)
Example wheel_broken_circuits :
  list_to_set (_broken_circuits OT_wheel).*1 =@{gset (gset nat)}
  {[ {[1; 3]}; {[1; 4; 5]}; {[2; 3; 4]}; {[2; 3; 5]}; {[2; 4]}; {[2; 5]}; {[4; 5]} ]}.
Proof. compute_done. Qed.

(** [for bc in BC: (sorted(bc), OT.subset_image(bc))] *)
Example wheel_13 :
  subset_image OT_wheel {[1; 3]} =
  Ok ({[ {[0; 1]} := 1%Q; {[0; 3]} := 1%Q ]} : gmap (gset nat) Q).
Proof. reflexivity. Qed.

Example wheel_145 :
  subset_image OT_wheel {[1; 4; 5]} =
  Ok ({[ {[0; 1; 4]} := (-1)%Q; {[0; 1; 5]} := (-1)%Q; {[0; 3; 4]} := (-1)%Q;
         {[0; 3; 5]} := (-1)%Q ]} : gmap (gset nat) Q).
Proof. reflexivity. Qed.

Example wheel_234 :
  subset_image OT_wheel {[2; 3; 4]} =
  Ok ({[ {[0; 1; 2]} := 1%Q; {[0; 1; 4]} := 1%Q; {[0; 2; 3]} := 1%Q;
         {[0; 3; 4]} := 1%Q ]} : gmap (gset nat) Q).
Proof. reflexivity. Qed.

Example wheel_235 :
  subset_image OT_wheel {[2; 3; 5]} =
  Ok ({[ {[0; 2; 3]} := (-1)%Q; {[0; 3; 5]} := 1%Q ]} : gmap (gset nat) Q).
Proof. reflexivity. Qed.

Example wheel_24 :
  subset_image OT_wheel {[2; 4]} =
  Ok ({[ {[1; 2]} := 1%Q; {[1; 4]} := 1%Q ]} : gmap (gset nat) Q).
Proof. reflexivity. Qed.

Example wheel_25 :
  subset_image OT_wheel {[2; 5]} =
  Ok ({[ {[0; 2]} := (-1)%Q; {[0; 5]} := 1%Q ]} : gmap (gset nat) Q).
Proof. reflexivity. Qed.

Example wheel_45 :
  subset_image OT_wheel {[4; 5]} =
  Ok ({[ {[3; 4]} := (-1)%Q; {[3; 5]} := (-1)%Q ]} : gmap (gset nat) Q).
Proof. reflexivity. Qed.

(** [G[1] * G[2] * G[3]], the element [e_S] at [S = {1, 2, 3}]. *)
Example wheel_123 :
  subset_image OT_wheel {[1; 2; 3]} =
  Ok ({[ {[0; 1; 2]} := 1%Q; {[0; 2; 3]} := 1%Q ]} : gmap (gset nat) Q).
Proof. reflexivity. Qed.

(** [prod(G)] is 0. *)
Example wheel_all : subset_image OT_wheel {[0; 1; 2; 3; 4; 5]} = Ok (zero (R:=Q)).
Proof. reflexivity. Qed.

(** [OT.product_on_basis(frozenset([2]), frozenset([3,4]))] *)
Example wheel_product :
  product_on_basis OT_wheel {[2]} {[3; 4]} =
  Ok ({[ {[0; 1; 2]} := 1%Q; {[0; 1; 4]} := 1%Q; {[0; 2; 3]} := 1%Q;
         {[0; 3; 4]} := 1%Q ]} : gmap (gset nat) Q).
Proof. reflexivity. Qed.

(** The ordering [o = [5,4,3,2,1,0]]. *)
Example wheel_reversed_01 :
  subset_image OT_wheel_reversed {[0; 1]} =
  Ok ({[ {[0; 3]} := (-1)%Q; {[1; 3]} := 1%Q ]} : gmap (gset nat) Q).
Proof. reflexivity. Qed.

Example wheel_reversed_014 :
  subset_image OT_wheel_reversed {[0; 1; 4]} =
  Ok ({[ {[0; 3; 5]} := 1%Q; {[0; 4; 5]} := 1%Q; {[1; 3; 5]} := (-1)%Q;
         {[1; 4; 5]} := (-1)%Q ]} : gmap (gset nat) Q).
Proof. reflexivity. Qed.

Example wheel_reversed_02 :
  subset_image OT_wheel_reversed {[0; 2]} =
  Ok ({[ {[0; 5]} := 1%Q; {[2; 5]} := (-1)%Q ]} : gmap (gset nat) Q).
Proof. reflexivity. Qed.

Example wheel_reversed_023 :
  subset_image OT_wheel_reversed {[0; 2; 3]} =
  Ok ({[ {[0; 3; 5]} := 1%Q; {[2; 3; 5]} := (-1)%Q ]} : gmap (gset nat) Q).
Proof. reflexivity. Qed.

Example wheel_reversed_12 :
  subset_image OT_wheel_reversed {[1; 2]} =
  Ok ({[ {[1; 4]} := (-1)%Q; {[2; 4]} := 1%Q ]} : gmap (gset nat) Q).
Proof. reflexivity. Qed.

Example wheel_reversed_123 :
  subset_image OT_wheel_reversed {[1; 2; 3]} =
  Ok ({[ {[1; 3; 5]} := 1%Q; {[1; 4; 5]} := 1%Q; {[2; 3; 5]} := (-1)%Q;
         {[2; 4; 5]} := (-1)%Q ]} : gmap (gset nat) Q).
Proof. reflexivity. Qed.

Example wheel_reversed_34 :
  subset_image OT_wheel_reversed {[3; 4]} =
  Ok ({[ {[3; 5]} := (-1)%Q; {[4; 5]} := (-1)%Q ]} : gmap (gset nat) Q).
Proof. reflexivity. Qed.

(** The graph with circuits [[0, 1], [2, 3, 4]], over the integers with the
    table [unit_determinants]. *)
Example graph_empty : subset_image OT_graph ∅ = Ok (monomial (R:=Z) ∅).
Proof. reflexivity. Qed.

Example graph_134 :
  subset_image OT_graph {[1; 3; 4]} =
  Ok ({[ {[0; 2; 3]} := (-1)%Z; {[0; 2; 4]} := 1%Z ]} : gmap (gset nat) Z).
Proof. reflexivity. Qed.

(** The graph with three pairs of parallel edges. *)
Example multi_empty : subset_image OT_multi ∅ = Ok (monomial (R:=Z) ∅).
Proof. reflexivity. Qed.

Example multi_123 : subset_image OT_multi {[1; 2; 3]} = Ok (zero (R:=Z)).
Proof. reflexivity. Qed.

Example multi_135 : subset_image OT_multi {[1; 3; 5]} = Ok (zero (R:=Z)).
Proof. reflexivity. Qed.

Example multi_12 : subset_image OT_multi {[1; 2]} = Ok (monomial (R:=Z) {[0; 2]}).
Proof. reflexivity. Qed.

Example multi_34 :
  subset_image OT_multi {[3; 4]} =
  Ok ({[ {[0; 2]} := (-1)%Z; {[0; 4]} := 1%Z ]} : gmap (gset nat) Z).
Proof. reflexivity. Qed.

Example multi_15 : subset_image OT_multi {[1; 5]} = Ok (monomial (R:=Z) {[0; 4]}).
Proof. reflexivity. Qed.

(** * Further properties of the class *)

(** ** The dictionary of broken circuits *)

Lemma build_broken_circuits_cons sorting c cs (d : dict) :
  build_broken_circuits sorting (c :: cs) d =
  e ← circuit_entry sorting c; build_broken_circuits sorting cs (dict_set e.1 e.2 d).
Proof.
  simpl. unfold circuit_entry.
  destruct (sorted _ (elements c)) as [[|m rest]| |]; done.
Qed.

Lemma build_broken_circuits_app sorting cs1 cs2 (d : dict) :
  build_broken_circuits sorting (cs1 ++ cs2) d =
  d1 ← build_broken_circuits sorting cs1 d; build_broken_circuits sorting cs2 d1.
Proof.
  revert d. induction cs1 as [|c cs1 IH]; intros d; [done|].
  rewrite <-app_comm_cons, !build_broken_circuits_cons.
  destruct (circuit_entry sorting c) as [e| |]; simpl; [apply IH | done..].
Qed.

Lemma circuit_entry_broken sorting c bc i :
  sorting_inj sorting → circuit_entry sorting c = Ok (bc, i) → broken sorting c bc i.
Proof.
  intros Hinj (L & HL & Hm)%bind_Ok. destruct L as [|m rest]; [done|].
  injection Hm as <- <-. by apply sorted_circuit.
Qed.

Lemma dict_set_NoDup k v (d : dict) : NoDup d.*1 → NoDup (dict_set k v d).*1.
Proof.
  induction d as [|[k' v'] d IH]; simpl.
  - intros _. apply NoDup_singleton.
  - intros [Hk' Hd]%NoDup_cons. case_decide; subst; simpl.
    + by apply NoDup_cons.
    + apply NoDup_cons. split; [|by apply IH].
      rewrite dict_set_keys. intros [->|?]; done.
Qed.

Lemma dict_set_length k v (d : dict) : length (dict_set k v d) ≤ S (length d).
Proof.
  induction d as [|[k' v'] d IH]; simpl; [done|]. case_decide; simpl; lia.
Qed.

Lemma dict_set_elem k v (d : dict) : (k, v) ∈ dict_set k v d.
Proof.
  induction d as [|[k' v'] d IH]; simpl; [by left|].
  case_decide; [by left | by right].
Qed.

Lemma dict_set_other k v (d : dict) k' v' :
  k' ≠ k → (k', v') ∈ d → (k', v') ∈ dict_set k v d.
Proof.
  intros Hne. induction d as [|[k0 v0] d IH]; simpl; [by intros []%elem_of_nil|].
  intros [[= <- <-]|Hin]%elem_of_cons.
  - rewrite decide_False by done. by left.
  - case_decide; right; [done | by apply IH].
Qed.

Lemma dict_functional (d : dict) k v v' :
  NoDup d.*1 → (k, v) ∈ d → (k, v') ∈ d → v = v'.
Proof.
  induction d as [|[k0 v0] d IH]; simpl; [by intros _ []%elem_of_nil|].
  intros [Hk0 Hd]%NoDup_cons Hv Hv'.
  assert (∀ w, (k0, w) ∈ d → False) as Hfresh.
  { intros w Hw. apply Hk0, list_elem_of_fmap. by exists (k0, w). }
  apply elem_of_cons in Hv as [Hv|Hv]; apply elem_of_cons in Hv' as [Hv'|Hv'];
    simplify_eq.
  - done.
  - by destruct (Hfresh v').
  - by destruct (Hfresh v).
  - by apply IH.
Qed.

Lemma build_broken_circuits_shape sorting cs (d d' : dict) :
  build_broken_circuits sorting cs d = Ok d' →
  NoDup d.*1 → NoDup d'.*1 ∧ length d' ≤ length d + length cs.
Proof.
  revert d. induction cs as [|c cs IH]; intros d.
  - intros [= <-] Hd. simpl. split; [done | lia].
  - rewrite build_broken_circuits_cons. intros (e & _ & Hrest)%bind_Ok Hd.
    destruct (IH _ Hrest (dict_set_NoDup e.1 e.2 d Hd)) as [Hnd Hlen].
    split; [done|]. pose proof (dict_set_length e.1 e.2 d). simpl. lia.
Qed.

Lemma build_broken_circuits_keeps sorting cs (d d' : dict) bc i :
  build_broken_circuits sorting cs d = Ok d' →
  (bc, i) ∈ d →
  (∀ c e, c ∈ cs → circuit_entry sorting c = Ok e → e.1 ≠ bc) →
  (bc, i) ∈ d'.
Proof.
  revert d. induction cs as [|c cs IH]; intros d.
  - by intros [= <-].
  - rewrite build_broken_circuits_cons. intros (e & He & Hrest)%bind_Ok Hin Hall.
    eapply IH; [exact Hrest | | intros; eapply Hall; [by right | done]].
    apply dict_set_other; [|done]. intros Heq. eapply Hall; [by left | done | done].
Qed.

(** X1: every entry of the dictionary that [__init__] builds is a circuit
    split at its element of least rank: the recorded element is not in the
    key, the key with the element is a circuit of the matroid, and every
    element of the key has a larger rank. *)
Theorem broken_circuits_sound (M : Matroid) (ordering : list nat)
    (A : OrlikTeraoAlgebra) (bc : gset nat) (i : nat) :
  __init__ M ordering = Ok A →
  (bc, i) ∈ _broken_circuits A →
  i ∉ bc ∧ bc ∪ {[i]} ∈ circuits M ∧ ∀ j, j ∈ bc → rank A i < rank A j.
Proof.
  intros (HA & <- & _)%init_well_built Hin.
  destruct (wb_entries A HA bc i Hin) as (c & Hc & Hb).
  pose proof Hb as (Hi & -> & _). split; [|split].
  - rewrite elem_of_difference, elem_of_singleton. by intros [_ []].
  - replace (c ∖ {[i]} ∪ {[i]}) with c; [done|].
    rewrite (union_difference_singleton_L i c) at 1 by done.
    by rewrite (comm_L (∪)).
  - intros j Hj. by eapply broken_rank.
Qed.

Lemma broken_circuits_sound_witness :
  0 ∉ ({[1; 3]} : gset nat) ∧ {[1; 3]} ∪ {[0]} ∈ circuits M_wheel ∧
  ∀ j, j ∈ ({[1; 3]} : gset nat) → rank OT_wheel 0 < rank OT_wheel j.
Proof.
  apply (broken_circuits_sound M_wheel [0; 1; 2; 3; 4; 5] OT_wheel {[1; 3]} 0).
  - reflexivity.
  - by left.
Defined.

(** X2: the dictionary has one entry for each broken circuit: its keys are
    pairwise distinct, it has at most as many entries as the matroid has
    circuits, and for every circuit the circuit without its element of
    least rank is a key. *)
Theorem broken_circuits_complete (M : Matroid) (ordering : list nat)
    (A : OrlikTeraoAlgebra) :
  __init__ M ordering = Ok A →
  NoDup (_broken_circuits A).*1 ∧
  length (_broken_circuits A) ≤ length (circuits M) ∧
  ∀ c, c ∈ circuits M →
    ∃ i, i ∈ c ∧ (∀ j, j ∈ c → rank A i ≤ rank A j) ∧
         c ∖ {[i]} ∈ (_broken_circuits A).*1.
Proof.
  intros Hinit. pose proof (init_well_built _ _ _ Hinit) as (HA & HM & _).
  apply init_Ok in Hinit as (bcs & idx & Hbcs & _ & HAeq).
  assert (_broken_circuits A = bcs) as Hd by (by rewrite HAeq).
  subst M. rewrite Hd.
  destruct (build_broken_circuits_shape _ _ _ _ Hbcs) as [Hnd Hlen];
    [apply NoDup_nil_2|].
  split; [done|]. split; [done|]. intros c Hc.
  destruct (wb_keys _ HA c Hc) as (i & Hb & Hkey). rewrite Hd in Hkey.
  exists i. pose proof Hb as (Hi & _). split; [done|]. split; [|done].
  intros j Hj. destruct (decide (j = i)) as [->|Hne]; [done|].
  apply Nat.lt_le_incl. eapply broken_rank; [exact Hb|].
  apply elem_of_difference. by rewrite elem_of_singleton.
Qed.

Lemma broken_circuits_complete_witness :
  NoDup (_broken_circuits OT_multi).*1 ∧
  length (_broken_circuits OT_multi) ≤ length (circuits M_multi) ∧
  ∀ c, c ∈ circuits M_multi →
    ∃ i, i ∈ c ∧ (∀ j, j ∈ c → rank OT_multi i ≤ rank OT_multi j) ∧
         c ∖ {[i]} ∈ (_broken_circuits OT_multi).*1.
Proof.
  apply (broken_circuits_complete M_multi [0; 1; 2; 3; 4; 5] OT_multi).
  reflexivity.
Defined.

(** X3: when several circuits have the same broken circuit, the dictionary
    keeps the element of the last of them in the iteration order of
    [circuits()]: the entry computed for a circuit is in the dictionary as
    soon as no later circuit gives the same key, and it is then the only
    entry with that key. *)
Theorem broken_circuits_last_wins (M : Matroid) (ordering : list nat)
    (A : OrlikTeraoAlgebra) (cs1 cs2 : list (gset nat)) (c bc : gset nat) (i : nat) :
  __init__ M ordering = Ok A →
  circuits M = cs1 ++ c :: cs2 →
  circuit_entry (make_sorting ordering) c = Ok (bc, i) →
  forallb (λ c', match circuit_entry (make_sorting ordering) c' with
                 | Ok e => negb (bool_decide (e.1 = bc))
                 | _ => true
                 end) cs2 = true →
  (bc, i) ∈ _broken_circuits A ∧
  ∀ i', (bc, i') ∈ _broken_circuits A → i' = i.
Proof.
  intros (bcs & idx & Hbcs & _ & ->)%init_Ok Hcs Hc Hlater. simpl.
  destruct (build_broken_circuits_shape _ _ _ _ Hbcs) as [Hnd _];
    [apply NoDup_nil_2|].
  assert ((bc, i) ∈ bcs) as Hin.
  { rewrite Hcs, build_broken_circuits_app in Hbcs.
    apply bind_Ok in Hbcs as (d1 & _ & Hbcs).
    rewrite build_broken_circuits_cons, Hc in Hbcs. simpl in Hbcs.
    eapply build_broken_circuits_keeps; [exact Hbcs | apply dict_set_elem|].
    intros c' e Hc' He Heq. rewrite forallb_forall in Hlater.
    specialize (Hlater c'). rewrite <-list_elem_of_In, He in Hlater.
    specialize (Hlater Hc').
    by rewrite bool_decide_eq_true_2 in Hlater. }
  split; [done|]. intros i' Hin'. by eapply dict_functional.
Qed.

Lemma broken_circuits_last_wins_witness :
  circuit_entry (make_sorting [0; 1; 2; 3; 4; 5]) {[0; 2; 4]} = Ok ({[2; 4]}, 0) ∧
  ({[2; 4]}, 1) ∈ _broken_circuits OT_multi ∧
  ∀ i', ({[2; 4]}, i') ∈ _broken_circuits OT_multi → i' = 1.
Proof.
  split; [reflexivity|].
  apply (broken_circuits_last_wins M_multi [0; 1; 2; 3; 4; 5] OT_multi
           [{[0; 1]}; {[0; 2; 4]}; {[0; 2; 5]}; {[0; 3; 4]}; {[0; 3; 5]}]
           [{[1; 2; 5]}; {[1; 3; 4]}; {[1; 3; 5]}; {[2; 3]}; {[4; 5]}]
           {[1; 2; 4]} {[2; 4]} 1); reflexivity.
Defined.

(** ** The ranks *)

Lemma make_sorting_snoc l x :
  make_sorting (l ++ [x]) = <[x := length l]> (make_sorting l).
Proof.
  unfold make_sorting, enumerate. rewrite imap_app, foldl_app. simpl.
  by rewrite Nat.add_0_r.
Qed.

Lemma make_sorting_last ordering x r r' :
  make_sorting ordering !! x = Some r → ordering !! r' = Some x → r' ≤ r.
Proof.
  revert r r'. induction ordering as [|y l IH] using rev_ind; intros r r'; [done|].
  rewrite make_sorting_snoc, lookup_snoc_Some.
  destruct (decide (y = x)) as [->|Hne].
  - rewrite lookup_insert_eq. intros [= <-] [[? _]|[-> _]]; lia.
  - rewrite lookup_insert_ne by done. intros Hr [[_ Hr']|[_ ?]]; [|done]. eauto.
Qed.

(** X4: the dictionary [_sorting] built from the ordering gives a rank
    exactly to the elements that the ordering lists, and the rank of an
    element is the last position at which the ordering lists it. *)
Theorem make_sorting_lookup (ordering : list nat) (x : nat) :
  (is_Some (make_sorting ordering !! x) ↔ x ∈ ordering) ∧
  ∀ r, make_sorting ordering !! x = Some r ↔
       ordering !! r = Some x ∧ ∀ r', ordering !! r' = Some x → r' ≤ r.
Proof.
  split; [apply make_sorting_is_Some|]. intros r. split.
  - intros Hr. split; [by apply make_sorting_Some|].
    intros r'. by apply make_sorting_last.
  - intros [Hx Hmax].
    destruct (proj2 (make_sorting_is_Some ordering x)) as [r0 Hr0];
      [by eapply list_elem_of_lookup_2|].
    pose proof (make_sorting_last _ _ _ _ Hr0 Hx).
    pose proof (Hmax r0 (make_sorting_Some _ _ _ Hr0)).
    rewrite Hr0. f_equal. lia.
Qed.

Lemma sorted_lookup_lt (l : list nat) r r' x y :
  StronglySorted (≤) l → NoDup l →
  l !! r = Some x → l !! r' = Some y → r < r' → x < y.
Proof.
  intros Hs. revert r r'. induction Hs as [|z l Hs IH Hz]; intros r r'; [done|].
  intros [Hzl Hnd]%NoDup_cons Hx Hy Hlt.
  destruct r' as [|r']; [lia|]. simpl in Hy.
  destruct r as [|r]; simpl in Hx.
  - injection Hx as ->. apply list_elem_of_lookup_2 in Hy.
    rewrite Forall_forall in Hz. pose proof (Hz y Hy).
    destruct (decide (x = y)) as [->|]; [done | lia].
  - eapply (IH r r'); [done..|lia].
Qed.

(** X5: without an ordering the constructor takes the sorted ground set:
    when every circuit is a non-empty subset of the ground set and the
    matroid lists its NBC sets, the construction succeeds, exactly the
    ground elements have a rank, and the ranks follow the order of the
    elements. *)
Theorem default_ordering_accepted (M : Matroid) :
  forallb (λ c : gset nat, bool_decide (c ≠ ∅ ∧ c ⊆ groundset M)) (circuits M) = true →
  (∃ idx, no_broken_circuits_sets M (merge_sort (≤) (elements (groundset M))) = inr idx) →
  ∃ A, __classcall_private__ M None = Ok A ∧
       dom (_sorting A) = groundset M ∧
       ∀ x y, x ∈ groundset M → y ∈ groundset M → (rank A x < rank A y ↔ x < y).
Proof.
  intros Hcs [idx Hidx]. unfold __classcall_private__.
  set (o := merge_sort (≤) (elements (groundset M))).
  assert (∀ x, x ∈ o ↔ x ∈ groundset M) as Ho.
  { intros x. unfold o. by rewrite merge_sort_Permutation, elem_of_elements. }
  destruct (proj2 (build_broken_circuits_Ok_iff (make_sorting o) (circuits M) []))
    as [bcs Hbcs].
  { intros c Hc%list_elem_of_In. rewrite forallb_forall in Hcs.
    apply Hcs, bool_decide_eq_true in Hc as [Hne Hsub].
    split; [done|]. intros x Hx. by apply make_sorting_is_Some, Ho, Hsub. }
  eexists. split.
  { apply init_Ok. exists bcs, idx. by split; [|split]. }
  simpl. split.
  { apply set_eq. intros x. by rewrite elem_of_dom, make_sorting_is_Some. }
  assert (StronglySorted (≤) o) as Hsorted.
  { apply StronglySorted_merge_sort; apply _. }
  assert (NoDup o) as Hnd.
  { unfold o. rewrite merge_sort_Permutation. apply NoDup_elements. }
  assert (∀ x y rx ry, make_sorting o !! x = Some rx → make_sorting o !! y = Some ry →
            rx < ry → x < y) as Hmono.
  { intros x y rx ry Hx%make_sorting_Some Hy%make_sorting_Some.
    by apply (sorted_lookup_lt o). }
  intros x y Hx Hy. unfold rank. simpl.
  destruct (proj2 (make_sorting_is_Some o x)) as [rx Hrx]; [by apply Ho|].
  destruct (proj2 (make_sorting_is_Some o y)) as [ry Hry]; [by apply Ho|].
  rewrite Hrx, Hry. simpl. split; [by eapply Hmono|]. intros Hlt.
  destruct (Nat.lt_trichotomy rx ry) as [?|[->|Hgt]]; [done| |].
  - assert (x = y) by (by eapply make_sorting_inj). lia.
  - pose proof (Hmono y x ry rx Hry Hrx Hgt). lia.
Qed.

Lemma default_ordering_accepted_witness :
  ∃ A, __classcall_private__ M_wheel None = Ok A ∧
       dom (_sorting A) = groundset M_wheel ∧
       ∀ x y, x ∈ groundset M_wheel → y ∈ groundset M_wheel →
              (rank A x < rank A y ↔ x < y).
Proof.
  apply (default_ordering_accepted M_wheel).
  - reflexivity.
  - eexists. reflexivity.
Defined.

(** ** The coefficient *)

Lemma StronglySorted_weaken {T} (P Q : relation T) l :
  (∀ x y, P x y → Q x y) → StronglySorted P l → StronglySorted Q l.
Proof.
  intros HPQ. induction 1 as [|x l _ IH Hx]; constructor; [done|].
  eapply Forall_impl; [exact Hx|]. eauto.
Qed.

(** X6: [_chi(X)] raises [ValueError] when [X] is not a subset of the
    ground set and [AssertionError] when [X] is a dependent subset of it;
    for an independent [X] it raises [KeyError] when the ordering does not
    list some element of [X], and otherwise it is the conversion into the
    base ring of the determinant of the coordinates of the elements of
    [X], taken in ascending rank, in the module of the closure of [X]: the
    determinant when it converts, the exception of the conversion when it
    does not. *)
Theorem chi_outcome {R : Type} `{!BaseRing R} `{!LinearAlgebra R}
    (A : OrlikTeraoAlgebra) (X : gset nat) :
  (X ⊈ groundset (_M A) → _chi A X = Raise ValueError) ∧
  (X ⊆ groundset (_M A) → is_independent (_M A) X = false →
   _chi A X = Raise AssertionError) ∧
  (X ⊆ groundset (_M A) → is_independent (_M A) X = true →
   X ⊈ dom (_sorting A) → _chi A X = Raise KeyError) ∧
  (X ⊆ groundset (_M A) → is_independent (_M A) X = true →
   X ⊆ dom (_sorting A) →
   ∃ Xs, Xs ≡ₚ elements X ∧
         StronglySorted (λ x y, rank A x ≤ rank A y) Xs ∧
         _chi A X =
           match det ((λ x, echelon_coordinates (_flat_module (closure (_M A) X))
                              (representation_vectors x)) <$> Xs) with
           | inr d => Ok d
           | inl e => Raise e
           end).
Proof.
  unfold _chi. split; [intros ?; by rewrite decide_False|].
  split; [intros ? ->; by rewrite decide_True|].
  split; intros Hground ->; rewrite decide_True by done.
  - intros Hsub.
    destruct (sorted _ (elements X)) as [Xs|e|] eqn:Hs; simpl.
    + destruct Hsub. intros x Hx%elem_of_elements.
      apply sorted_Ok in Hs as (_ & _ & Hkeys).
      destruct (Hkeys x Hx) as [k Hk%getitem_Ok]. apply elem_of_dom. by eexists.
    + apply sorted_Raise in Hs as (x & _ & Hx). unfold getitem in Hx.
      destruct (_ !! x); [done|]. by injection Hx as <-.
    + by apply sorted_not_OutOfFuel in Hs; [|apply getitem_not_OutOfFuel].
  - intros Hsub.
    destruct (sorted_total (getitem (_sorting A)) (elements X)) as [Xs Hs].
    { intros x [k Hk]%elem_of_elements%Hsub%elem_of_dom. exists k. by apply getitem_Ok. }
    rewrite Hs. simpl. exists Xs.
    apply sorted_Ok in Hs as (Hperm & Hsorted & _). split; [done|]. split.
    + eapply StronglySorted_weaken; [|exact Hsorted].
      intros x y (kx & ky & Hkx%getitem_Ok & Hky%getitem_Ok & Hle).
      unfold rank. by rewrite Hkx, Hky.
    + unfold call. by destruct (det _).
Qed.

(** ** The indices of the element that [subset_image] returns *)

Section key_invariant.
Context {R : Type} `{!BaseRing R} `{!LinearAlgebra R}.
Variable A : OrlikTeraoAlgebra.
Variable Q : gset nat → gset nat → Prop.
Hypothesis Q_refl : ∀ S, scan (_broken_circuits A) S = None → Q S S.
Hypothesis Q_step : ∀ S bc i j K,
  scan (_broken_circuits A) S = Some (bc, i) → i ∉ S → j ∈ bc →
  Q ((S ∪ {[i]}) ∖ {[j]}) K → Q S K.

(** A relation between [S] and the indices of [subset_image(S)] that holds
    at the sets left alone and is carried back along the rewriting steps
    holds for every index of the result. *)
Lemma subset_image_fuel_keys fuel S (r : gmap (gset nat) R) K :
  subset_image_fuel A fuel S = Ok r → is_Some (r !! K) → Q S K.
Proof.
  revert S r K. induction fuel as [|n IH]; intros S r K; simpl; [done|].
  unfold subset_image_body.
  destruct (scan _ S) as [[bc i]|] eqn:Hscan.
  - case_decide as Hi.
    { intros [= <-]. unfold zero. rewrite lookup_empty. by intros [? ?]. }
    intros (lc & _ & (js & (Hperm & _)%sorted_Ok & Hloop)%bind_Ok)%bind_Ok.
    revert K. revert Hloop.
    apply (for_loop_invariant (λ r, ∀ K, is_Some (r !! K) → Q S K)).
    { intros K. unfold zero. rewrite lookup_empty. by intros [? ?]. }
    intros r0 [ind j] r1 Hj%elem_of_enumerate_2 Hr0. simpl in Hj.
    rewrite Hperm, elem_of_elements in Hj. unfold reduce_step. simpl.
    intros (coeff & _ & Hstep)%bind_Ok. case_decide.
    { by injection Hstep as <-. }
    apply bind_Ok in Hstep as (q & _ & (x & Hx & [= <-])%bind_Ok).
    intros K [HK|HK%scal_is_Some]%add_is_Some; [by apply Hr0|].
    eapply Q_step; [done..|]. by eapply IH.
  - intros [= <-]. unfold monomial.
    intros [c [<- _]%lookup_singleton_Some]. by apply Q_refl.
Qed.
End key_invariant.

Lemma size_swap (S : gset nat) i j :
  i ∉ S → j ∈ S → size ((S ∪ {[i]}) ∖ {[j]}) = size S.
Proof.
  intros Hi Hj. rewrite size_difference by set_solver.
  rewrite size_union by set_solver. rewrite !size_singleton. lia.
Qed.

(** X7: the element that [subset_image(S)] returns is homogeneous of the
    degree of [S]: every index of it has as many elements as [S], whatever
    the dictionary of broken circuits holds. *)
Theorem subset_image_homogeneous {R : Type} `{!BaseRing R} `{!LinearAlgebra R}
    (A : OrlikTeraoAlgebra) (S : gset nat) (r : gmap (gset nat) R) (K : gset nat) :
  subset_image A S = Ok r →
  is_Some (r !! K) →
  degree_on_basis K = degree_on_basis S.
Proof.
  unfold subset_image, degree_on_basis.
  apply (subset_image_fuel_keys A (λ S K, size K = size S)); [done|].
  intros S' bc i j K' [_ Hsub]%scan_Some Hi Hj ->.
  apply size_swap; [done|]. by apply Hsub.
Qed.

Lemma subset_image_homogeneous_witness :
  subset_image OT_wheel {[1; 4; 5]} =
    Ok ({[ {[0; 1; 4]} := (-1)%Q; {[0; 1; 5]} := (-1)%Q; {[0; 3; 4]} := (-1)%Q;
           {[0; 3; 5]} := (-1)%Q ]} : gmap (gset nat) Q) ∧
  degree_on_basis ({[0; 3; 4]} : gset nat) = degree_on_basis ({[1; 4; 5]} : gset nat).
Proof.
  split; [reflexivity|].
  apply (subset_image_homogeneous OT_wheel {[1; 4; 5]}
           ({[ {[0; 1; 4]} := (-1)%Q; {[0; 1; 5]} := (-1)%Q; {[0; 3; 4]} := (-1)%Q;
               {[0; 3; 5]} := (-1)%Q ]} : gmap (gset nat) Q)).
  - reflexivity.
  - by exists (-1)%Q.
Defined.

(** X8: [subset_image(S)] is the basis element of [S] exactly when [S] is
    an NBC set. *)
Theorem subset_image_fixes_nbc {R : Type} `{!BaseRing R} `{!LinearAlgebra R}
    (A : OrlikTeraoAlgebra) (S : gset nat) :
  subset_image A S = Ok (monomial (R:=R) S) ↔ is_nbc A S = true.
Proof.
  split.
  - intros Hr%subset_image_fuel_nbc. apply Hr. unfold monomial.
    rewrite lookup_singleton_eq. by eexists.
  - intros Hnbc%is_nbc_scan. unfold subset_image. simpl.
    unfold subset_image_body. by rewrite Hnbc.
Qed.

(** X9: for an algebra built by the constructor, rewriting lowers the
    weight: when [S] is an NBC set the only index of [subset_image(S)] is
    [S], and otherwise every index of [subset_image(S)] has a smaller sum
    of ranks than [S]. *)
Theorem subset_image_lowers_weight {R : Type} `{!BaseRing R} `{!LinearAlgebra R}
    (M : Matroid) (ordering : list nat) (A : OrlikTeraoAlgebra)
    (S : gset nat) (r : gmap (gset nat) R) (K : gset nat) :
  __init__ M ordering = Ok A →
  subset_image A S = Ok r →
  is_Some (r !! K) →
  if is_nbc A S then K = S else weight A K < weight A S.
Proof.
  intros [HA _]%init_well_built Hr HK.
  assert (K = S ∨ weight A K < weight A S) as Hw.
  { revert Hr HK. unfold subset_image.
    apply (subset_image_fuel_keys A (λ S K, K = S ∨ weight A K < weight A S));
      [by left|].
    intros S' bc i j K' Hscan Hi Hj HK'. right.
    pose proof (recursive_call_weight A HA S' bc i j Hscan Hi Hj).
    destruct HK' as [->|?]; lia. }
  destruct (is_nbc A S) eqn:Hnbc.
  - apply is_nbc_scan in Hnbc. unfold subset_image in Hr. simpl in Hr.
    unfold subset_image_body in Hr. rewrite Hnbc in Hr. injection Hr as <-.
    unfold monomial in HK. by destruct HK as [c [<- _]%lookup_singleton_Some].
  - destruct Hw as [->|?]; [|done].
    apply subset_image_fuel_nbc in Hr. rewrite (Hr S HK) in Hnbc. done.
Qed.

Lemma subset_image_lowers_weight_witness :
  __init__ M_wheel [0; 1; 2; 3; 4; 5] = Ok OT_wheel ∧
  subset_image OT_wheel {[1; 4; 5]} =
    Ok ({[ {[0; 1; 4]} := (-1)%Q; {[0; 1; 5]} := (-1)%Q; {[0; 3; 4]} := (-1)%Q;
           {[0; 3; 5]} := (-1)%Q ]} : gmap (gset nat) Q) ∧
  if is_nbc OT_wheel {[1; 4; 5]}
  then ({[0; 3; 4]} : gset nat) = {[1; 4; 5]}
  else weight OT_wheel {[0; 3; 4]} < weight OT_wheel {[1; 4; 5]}.
Proof.
  split; [reflexivity|]. split; [reflexivity|].
  apply (subset_image_lowers_weight M_wheel [0; 1; 2; 3; 4; 5] OT_wheel {[1; 4; 5]}
           ({[ {[0; 1; 4]} := (-1)%Q; {[0; 1; 5]} := (-1)%Q; {[0; 3; 4]} := (-1)%Q;
               {[0; 3; 5]} := (-1)%Q ]} : gmap (gset nat) Q)).
  - reflexivity.
  - reflexivity.
  - by exists (-1)%Q.
Defined.

(** X10: when the circuits lie in the ground set, [subset_image] does not
    leave it: every index of [subset_image(S)], for [S] a subset of the
    ground set, is a subset of the ground set. *)
Theorem subset_image_in_groundset {R : Type} `{!BaseRing R} `{!LinearAlgebra R}
    (M : Matroid) (ordering : list nat) (A : OrlikTeraoAlgebra)
    (S : gset nat) (r : gmap (gset nat) R) (K : gset nat) :
  __init__ M ordering = Ok A →
  forallb (λ c : gset nat, bool_decide (c ⊆ groundset M)) (circuits M) = true →
  S ⊆ groundset M →
  subset_image A S = Ok r →
  is_Some (r !! K) →
  K ⊆ groundset M.
Proof.
  intros (HA & HM & _)%init_well_built Hcs HS Hr HK. revert HS.
  revert Hr HK. unfold subset_image.
  apply (subset_image_fuel_keys A (λ S K, S ⊆ groundset M → K ⊆ groundset M));
    [done|].
  intros S' bc i j K' [Hin Hsub]%scan_Some Hi Hj HK' HS'. apply HK'.
  destruct (wb_entries A HA bc i Hin) as (c & Hc & Hic & _).
  rewrite HM in Hc. rewrite forallb_forall in Hcs.
  apply list_elem_of_In, Hcs, bool_decide_eq_true in Hc.
  intros x [[Hx| ->%elem_of_singleton]%elem_of_union _]%elem_of_difference.
  - by apply HS'.
  - by apply Hc.
Qed.

Lemma subset_image_in_groundset_witness :
  __init__ M_wheel [0; 1; 2; 3; 4; 5] = Ok OT_wheel ∧
  subset_image OT_wheel {[1; 4; 5]} =
    Ok ({[ {[0; 1; 4]} := (-1)%Q; {[0; 1; 5]} := (-1)%Q; {[0; 3; 4]} := (-1)%Q;
           {[0; 3; 5]} := (-1)%Q ]} : gmap (gset nat) Q) ∧
  ({[0; 3; 4]} : gset nat) ⊆ groundset M_wheel.
Proof.
  split; [reflexivity|]. split; [reflexivity|].
  apply (subset_image_in_groundset M_wheel [0; 1; 2; 3; 4; 5] OT_wheel {[1; 4; 5]}
           ({[ {[0; 1; 4]} := (-1)%Q; {[0; 1; 5]} := (-1)%Q; {[0; 3; 4]} := (-1)%Q;
               {[0; 3; 5]} := (-1)%Q ]} : gmap (gset nat) Q)).
  - reflexivity.
  - reflexivity.
  - compute_done.
  - reflexivity.
  - by exists (-1)%Q.
Defined.

(** ** Products and generators *)

Lemma subset_image_fuel_size {R : Type} `{!BaseRing R} `{!LinearAlgebra R}
    (A : OrlikTeraoAlgebra) fuel (S : gset nat) (r : gmap (gset nat) R) (K : gset nat) :
  subset_image_fuel A fuel S = Ok r → is_Some (r !! K) → size K = size S.
Proof.
  apply (subset_image_fuel_keys A (λ S K, size K = size S)); [done|].
  intros S' bc i j K' [_ Hsub]%scan_Some Hi Hj ->.
  apply size_swap; [done|]. by apply Hsub.
Qed.

(** X11: the product of two basis elements indexed by NBC sets [a] and [b]
    is a combination of basis elements indexed by NBC sets, homogeneous of
    degree [|a| + |b|]. *)
Theorem product_on_basis_graded {R : Type} `{!BaseRing R} `{!LinearAlgebra R}
    (A : OrlikTeraoAlgebra) (a b : gset nat) (r : gmap (gset nat) R) (K : gset nat) :
  is_nbc A a = true → is_nbc A b = true →
  product_on_basis A a b = Ok r →
  is_Some (r !! K) →
  is_nbc A K = true ∧
  degree_on_basis K = degree_on_basis a + degree_on_basis b.
Proof.
  intros Ha Hb. unfold product_on_basis, basis_getitem, degree_on_basis, monomial.
  case_decide as Hae.
  { intros [= <-] [c [<- _]%lookup_singleton_Some]. subst a.
    by rewrite size_empty. }
  case_decide as Hbe.
  { intros [= <-] [c [<- _]%lookup_singleton_Some]. subst b.
    rewrite size_empty. split; [done | lia]. }
  destruct (bool_decide (a ## b)) eqn:Hdisj; simpl.
  - apply bool_decide_eq_true in Hdisj. intros Hr HK. split.
    + by apply (subset_image_fuel_nbc A _ _ _ Hr).
    + rewrite (subset_image_fuel_size A _ _ _ _ Hr HK).
      rewrite size_union by set_solver. lia.
  - intros [= <-]. unfold zero. rewrite lookup_empty. by intros [? ?].
Qed.

Lemma product_on_basis_graded_witness :
  is_nbc OT_wheel {[0; 1]} = true ∧ is_nbc OT_wheel {[2]} = true ∧
  product_on_basis OT_wheel {[0; 1]} {[2]} =
    Ok ({[ {[0; 1; 2]} := 1%Q ]} : gmap (gset nat) Q) ∧
  is_nbc OT_wheel {[0; 1; 2]} = true ∧
  degree_on_basis ({[0; 1; 2]} : gset nat) =
    degree_on_basis ({[0; 1]} : gset nat) + degree_on_basis ({[2]} : gset nat).
Proof.
  split; [reflexivity|]. split; [reflexivity|]. split; [reflexivity|].
  apply (product_on_basis_graded OT_wheel {[0; 1]} {[2]}
           ({[ {[0; 1; 2]} := 1%Q ]} : gmap (gset nat) Q)).
  - reflexivity.
  - reflexivity.
  - reflexivity.
  - by exists 1%Q.
Defined.

Lemma mapM_fmap_Ok {X Y} (f : X → outcome Y) (g : X → Y) (l : list X) :
  (∀ x, x ∈ l → f x = Ok (g x)) → mapM f l = Ok (g <$> l).
Proof.
  induction l as [|x l IH]; intros Hl; simpl; [done|].
  rewrite Hl by by left. simpl. rewrite IH; [done|]. intros; apply Hl; by right.
Qed.

Lemma generators_entries {R : Type} (sub : nat → outcome (gmap (gset nat) R)) l gens :
  mapM (λ i, x ← sub i; mret (i, x)) l = Ok gens →
  gens.*1 = l ∧ ∀ x g, (x, g) ∈ gens → sub x = Ok g.
Proof.
  rewrite mapM_Ok. induction 1 as [|i [i' g] l gens Hi _ [IH1 IH2]]; simpl.
  { split; [done|]. by intros ?? ?%elem_of_nil. }
  apply bind_Ok in Hi as (g' & Hg' & [= <- <-]). split; [by f_equal|].
  intros x g0 [[= -> ->]|Hin]%elem_of_cons; [done | by apply IH2].
Qed.

(** X12: for a matroid whose circuits lie in the ground set, with [_chi]
    defined on the independent sets and exact divisions,
    [algebra_generators] returns a family indexed by the ground set in
    ascending order; the generator at [x] is [subset_image({x})], a
    combination of basis elements indexed by NBC sets with one element. *)
Theorem algebra_generators_returns {R : Type} `{!BaseRing R} `{!LinearAlgebra R}
    (M : Matroid) (ordering : list nat) (A : OrlikTeraoAlgebra) :
  __init__ M ordering = Ok A →
  matroid_axioms M →
  forallb (λ c : gset nat, bool_decide (c ⊆ groundset M)) (circuits M) = true →
  chi_defined (R:=R) A →
  divisions_exact (R:=R) A →
  ∃ gens : list (nat * gmap (gset nat) R),
    algebra_generators A = Ok gens ∧
    gens.*1 = merge_sort (≤) (elements (groundset M)) ∧
    ∀ x g, (x, g) ∈ gens →
      subset_image A {[x]} = Ok g ∧
      ∀ K, is_Some (g !! K) → is_nbc A K = true ∧ degree_on_basis K = 1.
Proof.
  intros Hinit HM Hground Hchi Hdiv.
  pose proof (circuits_in_groundset M Hground) as Hg.
  pose proof (init_well_built _ _ _ Hinit) as (_ & HMA & _).
  unfold algebra_generators. rewrite HMA.
  destruct (mapM_total (λ i, x ← subset_image (R:=R) A {[i]}; mret (i, x))
              (merge_sort (≤) (elements (groundset M)))) as [gens Hgens].
  { intros x _.
    destruct (subset_image_returns M ordering A {[x]} Hinit HM Hg Hchi Hdiv)
      as [g ->].
    by eexists. }
  exists gens. split; [done|].
  apply generators_entries in Hgens as [Hkeys Hent]. split; [done|].
  intros x g Hg'%Hent. split; [done|]. intros K HK. split.
  - by apply (subset_image_fuel_nbc A _ _ _ Hg').
  - unfold degree_on_basis.
    rewrite (subset_image_fuel_size A _ _ _ _ Hg' HK). apply size_singleton.
Qed.

Lemma algebra_generators_returns_witness :
  __init__ M_wheel [0; 1; 2; 3; 4; 5] = Ok OT_wheel ∧
  ∃ gens : list (nat * gmap (gset nat) Q),
    algebra_generators OT_wheel = Ok gens ∧
    gens.*1 = merge_sort (≤) (elements (groundset M_wheel)) ∧
    ∀ x g, (x, g) ∈ gens →
      subset_image OT_wheel {[x]} = Ok g ∧
      ∀ K, is_Some (g !! K) → is_nbc OT_wheel K = true ∧ degree_on_basis K = 1.
Proof.
  split; [reflexivity|].
  apply (algebra_generators_returns M_wheel [0; 1; 2; 3; 4; 5] OT_wheel).
  - reflexivity.
  - apply matroid_of_circuits_axioms. reflexivity.
  - reflexivity.
  - apply chi_defined_total. intros rows. by eexists.
  - apply divisions_exact_check; [apply Q_ring_field | vm_compute; reflexivity].
Defined.

(** X13: when every circuit has at least three elements (the matroid has
    no loops and no parallel elements), every set with one element is an
    NBC set and the generators are the basis elements: the generator at
    [x] is the basis element of [{x}], as in the examples of the
    docstring. *)
Theorem algebra_generators_simple {R : Type} `{!BaseRing R} `{!LinearAlgebra R}
    (M : Matroid) (ordering : list nat) (A : OrlikTeraoAlgebra) :
  __init__ M ordering = Ok A →
  forallb (λ c : gset nat, bool_decide (2 < size c)) (circuits M) = true →
  algebra_generators A =
    Ok ((λ x, (x, monomial (R:=R) {[x]})) <$> merge_sort (≤) (elements (groundset M))).
Proof.
  intros (HA & HMA & _)%init_well_built Hcs.
  unfold algebra_generators. rewrite HMA.
  apply mapM_fmap_Ok. intros x _.
  assert (is_nbc A {[x]} = true) as Hnbc.
  { apply is_nbc_spec. intros bc [[bc' i] [-> Hin]]%list_elem_of_fmap Hsub.
    simpl in Hsub.
    destruct (wb_entries A HA bc' i Hin) as (c & Hc & Hic & -> & _).
    rewrite HMA in Hc. rewrite forallb_forall in Hcs.
    apply list_elem_of_In, Hcs, bool_decide_eq_true in Hc.
    apply subseteq_size in Hsub. rewrite size_singleton in Hsub.
    rewrite size_difference in Hsub by set_solver.
    rewrite size_singleton in Hsub. lia. }
  apply is_nbc_scan in Hnbc. unfold subset_image. simpl.
  unfold subset_image_body. by rewrite Hnbc.
Qed.

Lemma algebra_generators_simple_witness :
  __init__ M_wheel [0; 1; 2; 3; 4; 5] = Ok OT_wheel ∧
  algebra_generators OT_wheel =
    Ok ((λ x, (x, monomial (R:=Q) {[x]})) <$>
          merge_sort (≤) (elements (groundset M_wheel))).
Proof.
  split; [reflexivity|].
  apply (algebra_generators_simple M_wheel [0; 1; 2; 3; 4; 5] OT_wheel).
  - reflexivity.
  - reflexivity.
Defined.

(** ** Exceptions of [subset_image] *)

Lemma bind_Raise {X Y} (x : outcome X) (f : X → outcome Y) (e : exn) :
  x ≫= f = Raise e ↔ x = Raise e ∨ ∃ a, x = Ok a ∧ f a = Raise e.
Proof.
  destruct x as [a|e'|]; simpl; split; try naive_solver.
Qed.

Lemma for_loop_Raise {St It : Type} (body : St → It → outcome St) r l e :
  for_loop body r l = Raise e → ∃ r0 x, x ∈ l ∧ body r0 x = Raise e.
Proof.
  revert r. induction l as [|x l IH]; intros r; simpl; [done|].
  intros [Hx|(r' & _ & Hl)]%bind_Raise.
  - exists r, x. split; [by left | done].
  - destruct (IH r' Hl) as (r0 & y & Hy & Hb). exists r0, y.
    split; [by right | done].
Qed.

(** X14: for a matroid whose circuits lie in the ground set, an exception
    of [subset_image] is the exception of a conversion into the base ring:
    of a determinant inside [_chi], at an independent subset of the ground
    set, or of a quotient [R(coeff / lc)] of two values of [_chi] with
    [coeff] nonzero.  The check of the ground set, the assertion of [_chi]
    and the look-up of the ranks never fail. *)
Theorem subset_image_raises_conversion {R : Type} `{!BaseRing R} `{!LinearAlgebra R}
    (M : Matroid) (ordering : list nat) (A : OrlikTeraoAlgebra)
    (S : gset nat) (e : exn) :
  __init__ M ordering = Ok A →
  matroid_axioms M →
  forallb (λ c : gset nat, bool_decide (c ⊆ groundset M)) (circuits M) = true →
  subset_image (R:=R) A S = Raise e →
  (∃ (X : gset nat) (rows : list Vec),
     X ⊆ groundset M ∧ is_independent M X = true ∧
     _chi (R:=R) A X = Raise e ∧ det (R:=R) rows = inl e) ∨
  (∃ (X Y : gset nat) (lc coeff : R),
     _chi A X = Ok lc ∧ _chi A Y = Ok coeff ∧ coeff ≠ rzero ∧
     rdiv coeff lc = inl e).
Proof.
  intros (HA & <- & _)%init_well_built HM Hground.
  pose proof (circuits_in_groundset _ Hground) as Hg. clear Hground.
  assert (∀ c X x, c ∈ circuits (_M A) → X ⊆ c → x ∈ c → x ∉ X →
            (∃ v, _chi (R:=R) A X = Ok v) ∨
            ∃ e' rows, _chi (R:=R) A X = Raise e' ∧ det (R:=R) rows = inl e' ∧
                       X ⊆ groundset (_M A) ∧ is_independent (_M A) X = true)
    as Hchi.
  { intros c X x Hc Hsub Hx HxX.
    destruct (chi_proper_subset_call A HA HM c X x) as [rows Hrows];
      [by apply Hg | done..|].
    destruct (proper_subset_independent A HA HM c X x) as [Hind _]; [done..|].
    rewrite Hrows. destruct (det rows) as [e'|v] eqn:Hdet; simpl.
    - right. exists e', rows. split; [done|]. split; [done|].
      split; [|done]. pose proof (Hg c Hc). set_solver.
    - left. by eexists. }
  revert e. induction S as [S IH] using (subset_image_ind A HA). intros e.
  rewrite subset_image_unfold by done. unfold subset_image_body.
  destruct (scan _ S) as [[bc i]|] eqn:Hscan; [|done].
  case_decide as Hi; [done|].
  pose proof (scan_Some _ _ _ _ Hscan) as [Hin Hbc].
  destruct (wb_entries A HA bc i Hin) as (c0 & Hc0 & Hb).
  pose proof Hb as (Hi0 & Heq & _).
  destruct (Hchi c0 bc i) as [[lc Hlc]|(e' & rows & Hlc & Hdet & Hsub & Hind)];
    [done | set_solver.. | |].
  2:{ rewrite Hlc. simpl. intros [= ->]. left. by exists bc, rows. }
  rewrite Hlc. simpl.
  destruct (sorted_total (getitem (_sorting A)) (elements bc)) as [js Hjs].
  { intros y Hy%elem_of_elements.
    destruct (broken_keys A c0 bc i y Hb) as [k Hk]; [set_solver|].
    exists k. by apply getitem_Ok. }
  rewrite Hjs. simpl. apply sorted_Ok in Hjs as (Hperm & _).
  intros (r0 & [ind j] & Hj%elem_of_enumerate_2 & Hstep)%for_loop_Raise.
  simpl in Hj. rewrite Hperm, elem_of_elements in Hj.
  revert Hstep. unfold reduce_step. simpl.
  destruct (Hchi c0 ((bc ∪ {[i]}) ∖ {[j]}) j)
    as [[coeff Hcoeff]|(e' & rows & Hcoeff & Hdet & Hsub & Hind)];
    [done | set_solver.. | |].
  2:{ rewrite Hcoeff. simpl. intros [= ->]. left.
      by exists ((bc ∪ {[i]}) ∖ {[j]}), rows. }
  rewrite Hcoeff. simpl. case_decide as Hz; [done|].
  destruct (rdiv coeff lc) as [e'|q] eqn:Hdiv; simpl.
  - intros [= ->]. right. by exists bc, ((bc ∪ {[i]}) ∖ {[j]}), lc, coeff.
  - destruct (subset_image A ((S ∪ {[i]}) ∖ {[j]})) as [x|e'|] eqn:Hrec;
      simpl; [done| |done].
    intros [= ->]. by apply (IH bc i j eq_refl Hi Hj).
Qed.

Lemma subset_image_raises_conversion_witness :
  __init__ M_parallel [0; 1] = Ok OT_parallel ∧
  subset_image (LinearAlgebra0:=half_representation) OT_parallel {[1]} =
    Raise TypeError ∧
  ((∃ (X : gset nat) (rows : list Q),
      X ⊆ groundset M_parallel ∧ is_independent M_parallel X = true ∧
      _chi (LinearAlgebra0:=half_representation) OT_parallel X = Raise TypeError ∧
      det (LinearAlgebra:=half_representation) rows = inl TypeError) ∨
   (∃ (X Y : gset nat) (lc coeff : Z),
      _chi (LinearAlgebra0:=half_representation) OT_parallel X = Ok lc ∧
      _chi (LinearAlgebra0:=half_representation) OT_parallel Y = Ok coeff ∧
      coeff ≠ rzero ∧ rdiv coeff lc = inl TypeError)).
Proof.
  split; [reflexivity|]. split; [reflexivity|].
  apply (subset_image_raises_conversion (LinearAlgebra0:=half_representation)
           M_parallel [0; 1] OT_parallel {[1]} TypeError).
  - reflexivity.
  - apply matroid_of_circuits_axioms. reflexivity.
  - reflexivity.
  - reflexivity.
Defined.

(** The two conversions that fail over the integers: the quotient [1 / 2]
    of two values of [_chi] for the columns [(1 2)], and the determinant
    [1/2] inside [_chi] for the columns [(1 1/2)]. *)
Example conversion_of_quotient_fails :
  _chi (LinearAlgebra0:=parallel_representation) OT_parallel {[1]} = Ok 2%Z ∧
  _chi (LinearAlgebra0:=parallel_representation) OT_parallel {[0]} = Ok 1%Z ∧
  subset_image (LinearAlgebra0:=parallel_representation) OT_parallel {[1]} =
    Raise TypeError.
Proof. repeat split. Qed.

Example conversion_of_determinant_fails :
  _chi (LinearAlgebra0:=half_representation) OT_parallel {[0]} = Ok 1%Z ∧
  _chi (LinearAlgebra0:=half_representation) OT_parallel {[1]} = Raise TypeError ∧
  subset_image (LinearAlgebra0:=half_representation) OT_parallel {[1]} =
    Raise TypeError.
Proof. repeat split. Qed.

Example chi_off_the_ground_set :
  _chi (R:=Q) OT_wheel {[7]} = Raise ValueError ∧
  _chi (R:=Q) OT_wheel {[0; 1; 3]} = Raise AssertionError.
Proof. repeat split. Qed.

(** ** The memo table *)

(** X15: the memoised method agrees with [subset_image].  For an algebra
    built by the constructor and a table whose entries are values of
    [subset_image], a call at a [frozenset] gives the outcome of
    [subset_image] and only adds such entries to the table; when the call
    returns, its result is stored at [S], and every later call at [S]
    returns it from the table, which it leaves as it is. *)
Theorem cached_subset_image_hit {R : Type} `{!BaseRing R} `{!LinearAlgebra R}
    (M : Matroid) (ordering : list nat) (A : OrlikTeraoAlgebra)
    (S : gset nat) (fuel : nat) (c : gmap (gset nat) (gmap (gset nat) R)) :
  __init__ M ordering = Ok A →
  memo_sound A c →
  weight A S < fuel →
  ∃ c', cached_subset_image A fuel (PyFrozenset S) c = (subset_image A S, c') ∧
        memo_sound A c' ∧ c ⊆ c' ∧
        ∀ r, subset_image A S = Ok r →
             c' !! S = Some r ∧
             ∀ fuel', 0 < fuel' →
                      cached_subset_image A fuel' (PyFrozenset S) c' = (Ok r, c').
Proof.
  intros [HA _]%init_well_built Hc Hfuel.
  destruct (subset_image_memo_computes A HA fuel S Hfuel c Hc)
    as (c' & Hrun & Hs & Hsub).
  exists c'. unfold cached_subset_image. simpl.
  split; [done|]. split; [done|]. split; [done|]. intros r Hr.
  assert (c' !! S = Some r) as Hstored.
  { destruct fuel as [|n]; [lia|]. simpl in Hrun. unfold cached in Hrun.
    rewrite Hr in Hrun. destruct (c !! S) as [r0|] eqn:HcS.
    - by injection Hrun as -> <-.
    - destruct (subset_image_body_memo _ _ _ _) as [[x|e'|] c1].
      + injection Hrun as -> <-. apply lookup_insert_eq.
      + discriminate Hrun.
      + discriminate Hrun. }
  split; [done|]. intros [|n] Hn; [lia|]. simpl. unfold cached.
  by rewrite Hstored.
Qed.

Lemma cached_subset_image_hit_witness :
  __init__ M_wheel [0; 1; 2; 3; 4; 5] = Ok OT_wheel ∧
  weight OT_wheel {[1; 4; 5]} < 11 ∧
  ∃ c', cached_subset_image (R:=Q) OT_wheel 11 (PyFrozenset {[1; 4; 5]}) ∅ =
          (subset_image OT_wheel {[1; 4; 5]}, c') ∧
        memo_sound OT_wheel c' ∧ ∅ ⊆ c' ∧
        ∀ r, subset_image OT_wheel {[1; 4; 5]} = Ok r →
             c' !! ({[1; 4; 5]} : gset nat) = Some r ∧
             ∀ fuel', 0 < fuel' →
                      cached_subset_image OT_wheel fuel' (PyFrozenset {[1; 4; 5]}) c' =
                        (Ok r, c').
Proof.
  split; [reflexivity|]. split; [vm_compute; lia|].
  apply (cached_subset_image_hit M_wheel [0; 1; 2; 3; 4; 5] OT_wheel {[1; 4; 5]} 11 ∅).
  - reflexivity.
  - intros S r. by rewrite lookup_empty.
  - vm_compute. lia.
Defined.

(** ** The sorting key of the terms *)

Lemma sorted_elements_inj (x y : gset nat) :
  merge_sort (≤) (elements x) = merge_sort (≤) (elements y) → x = y.
Proof.
  intros Heq. apply set_eq. intros z.
  rewrite <-!elem_of_elements.
  rewrite <-(merge_sort_Permutation (≤) (elements x)).
  rewrite <-(merge_sort_Permutation (≤) (elements y)).
  by rewrite Heq.
Qed.

Lemma list_lt_antisym l k : l ≠ k → list_lt l k = negb (list_lt k l).
Proof.
  revert k. induction l as [|x l IH]; intros [|y k] Hne; simpl; try done.
  destruct (Nat.lt_trichotomy x y) as [Hlt|[->|Hgt]].
  - rewrite (proj2 (Nat.ltb_lt x y)) by done.
    rewrite (proj2 (Nat.ltb_ge y x)) by lia.
    rewrite (proj2 (Nat.eqb_neq y x)) by lia. done.
  - rewrite Nat.ltb_irrefl, Nat.eqb_refl. simpl. apply IH. congruence.
  - rewrite (proj2 (Nat.ltb_ge x y)) by lia.
    rewrite (proj2 (Nat.eqb_neq x y)) by lia.
    rewrite (proj2 (Nat.ltb_lt y x)) by done. done.
Qed.

(** X16: [_sort_key] orders the index sets strictly and totally, the sets
    with more elements first: two sets with the same key are equal, a set
    with more elements has the smaller key, and of two distinct sets
    exactly one has the smaller key. *)
Theorem sort_key_order (x y : gset nat) :
  (_sort_key x = _sort_key y → x = y) ∧
  (size y < size x → tuple_lt (_sort_key x) (_sort_key y) = true) ∧
  (x ≠ y → tuple_lt (_sort_key x) (_sort_key y) =
           negb (tuple_lt (_sort_key y) (_sort_key x))).
Proof.
  unfold _sort_key, tuple_lt. simpl. split; [|split].
  - intros [= _ Heq]. by apply sorted_elements_inj.
  - intros Hlt. rewrite (proj2 (Z.ltb_lt _ _)) by lia. done.
  - intros Hne.
    destruct (Z.ltb_spec (- Z.of_nat (size x)) (- Z.of_nat (size y)));
      destruct (Z.ltb_spec (- Z.of_nat (size y)) (- Z.of_nat (size x)));
      destruct (Z.eqb_spec (- Z.of_nat (size x)) (- Z.of_nat (size y)));
      destruct (Z.eqb_spec (- Z.of_nat (size y)) (- Z.of_nat (size x)));
      simpl; try lia; try done.
    apply list_lt_antisym. intros Hl. by apply Hne, sorted_elements_inj.
Qed.

(** ** The printed name of a basis element *)

Lemma append_cons c (s t : string) : String c s +:+ t = String c (s +:+ t).
Proof. done. Qed.

Lemma append_assoc_char (d : string) c (s : string) :
  d +:+ String c s = (d +:+ String c EmptyString) +:+ s.
Proof. induction d as [|c' d IH]; [done|]. rewrite !append_cons. by f_equal. Qed.

Lemma append_empty_r (d : string) : d +:+ EmptyString = d.
Proof. induction d as [|c d IH]; [done|]. rewrite append_cons. by f_equal. Qed.

Lemma pretty_N_go_digits x s :
  ∃ d, pretty_N_go x s = d +:+ s ∧ comma_free d ∧ ((0 < x)%N → d ≠ EmptyString).
Proof.
  revert s. induction (N.lt_wf_0 x) as [x _ IH]; intros s.
  assert (x = 0 ∨ 0 < x)%N as [->|Hx] by lia.
  - exists EmptyString. rewrite pretty_N_go_0. split; [done|]. split; [done|]. lia.
  - rewrite pretty_N_go_step by done.
    destruct (IH (x `div` 10)%N (N.div_lt x 10 Hx eq_refl)
                (String (pretty_N_char (x `mod` 10)) s)) as (d & -> & Hd & _).
    exists (d +:+ String (pretty_N_char (x `mod` 10)) EmptyString).
    split; [|split].
    + apply append_assoc_char.
    + clear -Hd. induction d as [|c d IHd]; simpl.
      * split; [|done]. unfold pretty_N_char. by repeat case_match.
      * destruct Hd. split; [done|]. by apply IHd.
    + intros _. by destruct d.
Qed.

Lemma pretty_nat_digits (n : nat) : comma_free (pretty n) ∧ pretty n ≠ EmptyString.
Proof.
  unfold pretty, pretty_nat, pretty, pretty_N. case_decide as Hn.
  - split; [|done]. simpl. split; done.
  - destruct (pretty_N_go_digits (N.of_nat n) EmptyString) as (d & -> & Hd & Hne).
    rewrite append_empty_r.
    split; [done|]. apply Hne. lia.
Qed.

Lemma comma_split s1 s2 r1 r2 :
  comma_free s1 → comma_free s2 → tail_like r1 → tail_like r2 →
  s1 +:+ r1 = s2 +:+ r2 → s1 = s2 ∧ r1 = r2.
Proof.
  revert s2. induction s1 as [|c s1 IH]; intros [|c2 s2]; simpl.
  - done.
  - intros _ [Hc _] [->|[r' ->]] _; [done|]. intros [= <- _]. done.
  - intros [Hc _] _ _ [->|[r' ->]]; [done|]. intros [= -> _]. done.
  - intros [_ H1] [_ H2] Hr1 Hr2 [= -> Heq].
    destruct (IH s2 H1 H2 Hr1 Hr2 Heq) as [-> ->]. done.
Qed.

Lemma concat_tail (x : string) (l : list string) :
  String.concat ", " (x :: l) =
    x +:+ match l with [] => EmptyString | _ => ", " +:+ String.concat ", " l end.
Proof.
  destruct l; simpl; [|done]. by rewrite append_empty_r.
Qed.

Lemma concat_pretty_inj (l1 l2 : list nat) :
  String.concat ", " (pretty <$> l1) = String.concat ", " (pretty <$> l2) → l1 = l2.
Proof.
  revert l2. induction l1 as [|x l1 IH]; intros [|y l2].
  - done.
  - rewrite fmap_cons, concat_tail. simpl.
    destruct (pretty_nat_digits y) as [_ Hy].
    destruct (pretty y); [done|]. done.
  - rewrite fmap_cons, concat_tail. simpl.
    destruct (pretty_nat_digits x) as [_ Hx].
    destruct (pretty x); [done|]. done.
  - rewrite !fmap_cons, !concat_tail. intros Heq.
    apply comma_split in Heq as [Hxy Hrest].
    + apply (inj pretty) in Hxy as ->. f_equal.
      destruct l1 as [|x1 l1], l2 as [|y2 l2]; try done.
      apply IH. simpl in Hrest. by injection Hrest.
    + apply pretty_nat_digits.
    + apply pretty_nat_digits.
    + destruct (pretty <$> l1); [by left | right; by eexists].
    + destruct (pretty <$> l2); [by left | right; by eexists].
Qed.

Lemma app_inj_tail_string (s1 s2 t : string) :
  String.length t = 1 → s1 +:+ t = s2 +:+ t → s1 = s2.
Proof.
  destruct t as [|c [|]]; [done| |done]. intros _.
  revert s2. induction s1 as [|c1 s1 IH]; intros [|c2 s2]; simpl; try done.
  - intros [= _ Heq]. by destruct s2.
  - intros [= _ Heq]. by destruct s1.
  - intros [= -> Heq]. f_equal. by apply IH.
Qed.

Lemma append_inj_head (p s1 s2 : string) : p +:+ s1 = p +:+ s2 → s1 = s2.
Proof.
  induction p as [|c p IH]; [done|]. rewrite !append_cons. intros [= ?]. auto.
Qed.

(** X17: the printed names tell the basis elements apart: two index sets
    have the same name only when they are equal. *)
Theorem repr_term_inj (x y : gset nat) : _repr_term x = _repr_term y ↔ x = y.
Proof.
  split; [|by intros ->]. unfold _repr_term.
  intros Heq%append_inj_head%app_inj_tail_string; [|done].
  by apply sorted_elements_inj, concat_pretty_inj.
Qed.

(** The examples of the docstrings of [_repr_term] and [_sort_key]. *)
Example repr_term_docstring : _repr_term {[0]} = "OT{0}".
Proof. reflexivity. Qed.

Example repr_term_three : _repr_term {[12; 3; 0]} = "OT{0, 3, 12}".
Proof. reflexivity. Qed.

Example sort_key_docstring :
  _sort_key {[1; 2]} = ((-2)%Z, [1; 2]) ∧
  _sort_key {[0; 1; 2]} = ((-3)%Z, [0; 1; 2]) ∧
  _sort_key ∅ = (0%Z, []).
Proof. repeat split. Qed.
